(** * SmashEnglishWithGemini: the service layer, the PCM decoder, the
      writing-page text reconstruction and the ResultDisplay audio cache

    A shallow embedding of
    - [services/geminiService] ([getModelConfig], [decode],
      [decodeAudioData], [generateSpeech], [analyzeSentence], [lookupWord],
      [evaluateWriting], [getChatResponse]),
    - the three places of the UI that rebuild the improved document from a
      [WritingResult] ([copyFullText], the [fullText] prop of the syntax view,
      the chat-assistant context of [App]),
    - the audio cache of [ResultDisplay] (the prefetch effect and [playAudio]),
      as a transition system over the events of the browser's event loop,
    - the diff view of [WritingPage] ([UnifiedSegmentRenderer]), the
      handlers that await the service ([handleAnalyze] of [App],
      [handleSearch], [handleAnalyze] and [handleSyntaxAnalyze] of
      [WritingPage], [handleSend] of [AiAssistant]) and the play button of
      [DictionaryPage].

    Conventions.  A JavaScript string is a [string]; a binary string (the
    result of [atob]) is a [string] whose characters are the bytes.  A
    JavaScript number is the rational it denotes.  An [async] function is
    the list of effects it performs together with the way it completes: a
    rejected promise is a [Throw].  Host functions that are not part of the
    repository ([atob], [JSON.parse], the provider's client) are parameters. *)

From Stdlib Require Import ZArith QArith String Ascii List Lia DecimalString.
From stdpp Require Import base tactics option list.
Import ListNotations.

Set Default Proof Using "Type".
Set Warnings "-register-all".

(** ** JavaScript values and completions *)

Module JS.

Inductive Number_ : Type :=
  | NaN
  | Infinity (negative : bool)
  | Finite (q : Q).

Inductive Value : Type :=
  | Undefined
  | Null
  | Bool (b : bool)
  | Num (n : Number_)
  | Str (s : string)
  | Arr (elems : list Value)
  | Obj (props : list (string * Value)).

(** What a [throw] carries. [Error msg] is [new Error(msg)]; the other
    constructors are the exceptions raised by the host. *)
Inductive Thrown : Type :=
  | Error (message : string)
  | TypeError
  | RangeError
  | SyntaxError
  | DOMException (name : string)
  | HostFailure (code : nat).

Inductive Completion (A : Type) : Type :=
  | Normal (a : A)
  | Throw (e : Thrown).
Arguments Normal {A} a.
Arguments Throw {A} e.

Definition truthy_string (s : string) : bool :=
  match s with EmptyString => false | _ => true end.

(** [ToBoolean]. *)
Definition truthy (v : Value) : bool :=
  match v with
  | Undefined | Null => false
  | Bool b => b
  | Num NaN => false
  | Num (Infinity _) => true
  | Num (Finite q) => negb (Qeq_bool q 0)
  | Str s => truthy_string s
  | Arr _ | Obj _ => true
  end.

Fixpoint assoc (k : string) (props : list (string * Value)) : option Value :=
  match props with
  | [] => None
  | (k', v) :: rest => if String.eqb k k' then Some v else assoc k rest
  end.

(** [v.k] for a key [k] that no built-in prototype defines (the keys read by
    the service are [correction], [corrected], [generalFeedback] and
    [segments]): a [TypeError] on [undefined] and [null], the own property of
    an object, [undefined] otherwise. *)
Definition get_prop (v : Value) (k : string) : Completion Value :=
  match v with
  | Undefined | Null => Throw TypeError
  | Obj props => Normal (default Undefined (assoc k props))
  | _ => Normal Undefined
  end.

Definition index_key (i : nat) : string :=
  NilZero.string_of_uint (Nat.to_uint i).

Fixpoint indexed {A} (f : A -> Value) (i : nat) (l : list A)
  : list (string * Value) :=
  match l with
  | [] => []
  | x :: rest => (index_key i, f x) :: indexed f (S i) rest
  end.

(** The own enumerable properties copied by [{...v}]. *)
Definition spread (v : Value) : list (string * Value) :=
  match v with
  | Obj props => props
  | Arr elems => indexed (fun x => x) 0 elems
  | Str s => indexed (fun c => Str (String c EmptyString)) 0
               (list_ascii_of_string s)
  | _ => []
  end.

(** [{...props, k: v}]: an existing key keeps its place and takes the new
    value, a new key is added last. *)
Fixpoint set_prop (props : list (string * Value)) (k : string) (v : Value)
  : list (string * Value) :=
  match props with
  | [] => [(k, v)]
  | (k', v') :: rest =>
      if String.eqb k k' then (k', v) :: rest
      else (k', v') :: set_prop rest k v
  end.

End JS.
Import JS.

(** ** types.ts *)

Inductive ModelLevel : Type := mini | quick | deep.

Inductive WritingMode : Type :=
  | fix_ | ielts_5_5 | ielts_6_0 | ielts_6_5 | ielts_7_0 | ielts_7_5 | ielts_8_0.

Inductive SegmentType : Type := unchanged | change.

Inductive SegmentCategory : Type :=
  | grammar | vocabulary | style | collocation | punctuation.

Record WritingSegment : Type := {
  seg_type : SegmentType;
  seg_text : string;
  seg_original : option string;
  seg_reason : option string;
  seg_category : option SegmentCategory
}.

Record WritingResult : Type := {
  wr_mode : WritingMode;
  wr_generalFeedback : string;
  wr_segments : list WritingSegment
}.

Inductive ContextType : Type := ctx_sentence | ctx_word | ctx_writing.

(** ** The provider's client *)

(** The template literals of the service, by the operation that builds them
    and the values interpolated into them. *)
Inductive Prompt : Type :=
  | SpeechText (text : string)
  | AnalyzePrompt (sentence : string)
  | LookupPrompt (word : string)
  | WritingPrompt (mode : WritingMode) (text : string).

Inductive ResponseFormat : Type :=
  | AudioKore
  | JsonSchema (operation : string).

(** [config.thinkingConfig] is [undefined] or [{ thinkingBudget }]. *)
Record GenerateContentParameters : Type := {
  gc_model : string;
  gc_contents : Prompt;
  gc_thinkingConfig : option Z;
  gc_format : ResponseFormat
}.

Inductive Request : Type :=
  | GenerateContent (p : GenerateContentParameters)
  | SendMessage (model : string) (contextType : ContextType)
      (contextShown : string) (message : string).

(** What the service reads of a response: [response.text] and, of the first
    part of the first candidate, [inlineData.data] and [text]. *)
Record Response : Type := {
  resp_text : option string;
  resp_inlineData : option string;
  resp_partText : option string
}.

(** A constructed [GoogleGenAI]: how the provider answers each request. *)
Definition Client : Type := Request -> Completion Response.

(** [const ai = apiKey ? new GoogleGenAI({ apiKey }) : null] *)
Definition make_ai (apiKey : option string) (provider : Client) : option Client :=
  match apiKey with
  | Some k => if truthy_string k then Some provider else None
  | None => None
  end.

(** ** Effects of an async function *)

Inductive Effect : Type :=
  | Net (r : Request)
  | ConsoleError (label : string) (e : Thrown)
  | ConsoleWarn (label : string).

Definition Async (A : Type) : Type := (list Effect * Completion A)%type.

Definition ret {A} (a : A) : Async A := ([], Normal a).
Definition throw {A} (e : Thrown) : Async A := ([], Throw e).
Definition lift {A} (c : Completion A) : Async A := ([], c).
Definition perform (e : Effect) : Async unit := ([e], Normal tt).

Definition bind {A B} (m : Async A) (k : A -> Async B) : Async B :=
  match m with
  | (t, Normal a) => let '(t', r) := k a in (t ++ t', r)
  | (t, Throw e) => (t, Throw e)
  end.

(** [try { m } catch (error) { handler error }] *)
Definition try_catch {A} (m : Async A) (handler : Thrown -> Async A) : Async A :=
  match m with
  | (t, Throw e) => let '(t', r) := handler e in (t ++ t', r)
  | done => done
  end.

Notation "'let!' x ':=' m 'in' k" := (bind m (fun x => k))
  (at level 10, x name, m at level 100, k at level 200, only parsing).
Notation "'do!' m 'in' k" := (bind m (fun _ => k))
  (at level 10, m at level 100, k at level 200, only parsing).

(** [await ai.models.generateContent(...)] and [await chat.sendMessage(...)] *)
Definition send (ai : Client) (r : Request) : Async Response :=
  ([Net r], ai r).

Fixpoint requests (t : list Effect) : list Request :=
  match t with
  | [] => []
  | Net r :: rest => r :: requests rest
  | _ :: rest => requests rest
  end.

Definition effects {A} (m : Async A) : list Effect := fst m.
Definition outcome {A} (m : Async A) : Completion A := snd m.

Definition cbind {A B} (c : Completion A) (k : A -> Completion B) : Completion B :=
  match c with
  | Normal a => k a
  | Throw e => Throw e
  end.

(** ** services/geminiService.ts *)

Record ModelConfig : Type := {
  model : string;
  thinkingBudget : Z
}.

(** The [default] branch of the [switch] is out of reach of a [ModelLevel]. *)
Definition getModelConfig (level : ModelLevel) : ModelConfig :=
  match level with
  | mini => {| model := "gemini-2.5-flash"; thinkingBudget := 0 |}
  | quick => {| model := "gemini-2.5-flash"; thinkingBudget := 500 |}
  | deep => {| model := "gemini-2.5-flash"; thinkingBudget := 2000 |}
  end.

(** [thinkingBudget > 0 ? { thinkingBudget } : undefined] *)
Definition thinkingConfig_of (budget : Z) : option Z :=
  if (0 <? budget)%Z then Some budget else None.

(** *** Typed arrays and the audio buffer *)

(** A [Uint8Array] that spans its whole [ArrayBuffer], as the one [decode]
    allocates: each element is kept modulo 256. *)
Definition Uint8Array : Type := list Z.
Definition to_uint8 (n : Z) : Z := (n mod 256)%Z.

(** Two's complement reading of a 16-bit pattern. *)
Definition to_int16 (u : Z) : Z := ((u + 32768) mod 65536 - 32768)%Z.

(** The elements an [Int16Array] sees over a byte buffer (low byte first,
    as on every platform the application runs on). *)
Fixpoint int16_view (bytes : list Z) : list Z :=
  match bytes with
  | lo :: hi :: rest => to_int16 (lo + 256 * hi) :: int16_view rest
  | _ => []
  end.

(** [new Int16Array(buffer)]: a [RangeError] unless the byte length of the
    buffer is a multiple of 2. *)
Definition Int16Array_over (bytes : Uint8Array) : Completion (list Z) :=
  if Nat.even (length bytes) then Normal (int16_view bytes)
  else Throw RangeError.

(** An [AudioBuffer]: its sample rate and one [Float32Array] per channel. A
    sample is a number; every quotient of a 16-bit integer by 32768 is a
    binary fraction a [Float32Array] stores without rounding. *)
Record AudioBuffer : Type := {
  ab_sampleRate : Z;
  ab_length : nat;
  ab_channels : list (list Number_)
}.

Definition numberOfChannels (b : AudioBuffer) : nat := length (ab_channels b).

(** [ctx.createBuffer(numberOfChannels, length, sampleRate)] of the Web
    Audio API: a silent buffer, and a [NotSupportedError] when an argument is
    zero. (An implementation also throws it above its own limits, which are
    at least 32 channels and the rates from 8000 Hz to 96000 Hz; these limits
    are not modelled, and nothing is stated about a call beyond them. The
    service asks for one channel at 24000 Hz.) *)
Definition createBuffer (channels frames : nat) (sampleRate : Z)
  : Completion AudioBuffer :=
  if (channels =? 0)%nat || (frames =? 0)%nat || (sampleRate <=? 0)%Z
  then Throw (DOMException "NotSupportedError")
  else Normal {| ab_sampleRate := sampleRate;
                 ab_length := frames;
                 ab_channels := replicate channels (replicate frames (Finite 0)) |}.

(** [dataInt16[k] / 32768.0]; reading past the end gives [undefined], and
    the quotient is then [NaN]. *)
Definition sample_at (dataInt16 : list Z) (k : nat) : Number_ :=
  match dataInt16 !! k with
  | Some x => Finite (x # 32768)
  | None => NaN
  end.

(** The inner loop, [for (let i = 0; i < frameCount; i++)], over the
    indices [i] it visits. A store past the end of a typed array is ignored,
    as is a list insert. *)
Definition fill_channel (dataInt16 : list Z) (numChannels channel : nat)
    (visited : list nat) (channelData : list Number_) : list Number_ :=
  fold_left
    (fun cd i => <[ i := sample_at dataInt16 (i * numChannels + channel) ]> cd)
    visited channelData.

(** [frameCount = dataInt16.length / numChannels] is a quotient of numbers and
    need not be an integer: [createBuffer] truncates it, the loop visits every
    [i] below it. *)
Definition frames_allocated (len numChannels : nat) : nat := len / numChannels.
Definition frames_visited (len numChannels : nat) : nat :=
  (len + numChannels - 1) / numChannels.

Definition decodeAudioData (data : Uint8Array) (sampleRate : Z) (numChannels : nat)
  : Completion AudioBuffer :=
  cbind (Int16Array_over data) (fun dataInt16 =>
  let len := length dataInt16 in
  cbind (createBuffer numChannels (frames_allocated len numChannels) sampleRate)
    (fun buffer =>
  Normal {| ab_sampleRate := ab_sampleRate buffer;
            ab_length := ab_length buffer;
            ab_channels :=
              imap (fun channel channelData =>
                      fill_channel dataInt16 numChannels channel
                        (seq 0 (frames_visited len numChannels)) channelData)
                   (ab_channels buffer) |})).

(** The object literals passed to [ai.models.generateContent], by operation. *)
Definition speech_request (text : string) : Request :=
  GenerateContent
    {| gc_model := "gemini-2.5-flash-preview-tts";
       gc_contents := SpeechText text;
       gc_thinkingConfig := None;
       gc_format := AudioKore |}.

Definition json_request (cfg : ModelConfig) (prompt : Prompt) (schema : string)
  : Request :=
  GenerateContent
    {| gc_model := model cfg;
       gc_contents := prompt;
       gc_thinkingConfig := thinkingConfig_of (thinkingBudget cfg);
       gc_format := JsonSchema schema |}.

Definition analyze_request (cfg : ModelConfig) (sentence : string) : Request :=
  json_request cfg (AnalyzePrompt sentence) "analysis".
Definition lookup_request (cfg : ModelConfig) (word : string) : Request :=
  json_request cfg (LookupPrompt word) "dictionary".
Definition writing_request (cfg : ModelConfig) (mode : WritingMode)
    (text : string) : Request :=
  json_request cfg (WritingPrompt mode text) "writing".

Section Service.

(** The host's [atob] (a binary string, or an [InvalidCharacterError]) and
    [JSON.parse] (a value, or a [SyntaxError]). *)
Variable atob : string -> Completion string.
Variable JSON_parse : string -> Completion Value.

Definition charCodeAt (c : ascii) : Z := Z.of_nat (nat_of_ascii c).

Definition decode (base64 : string) : Completion Uint8Array :=
  cbind (atob base64) (fun binaryString =>
  Normal (map (fun c => to_uint8 (charCodeAt c)) (list_ascii_of_string binaryString))).

Definition generateSpeech (ai : option Client) (text : string) : Async AudioBuffer :=
  match ai with
  | None => throw (Error "API Key missing")
  | Some client =>
      let! response := send client (speech_request text) in
      match resp_inlineData response with
      | Some (String _ _ as base64Audio) =>
          lift (cbind (decode base64Audio) (fun bytes =>
                decodeAudioData bytes 24000 1))
      | _ =>
          do! (if truthy_string (default EmptyString (resp_partText response))
               then perform (ConsoleWarn "Gemini TTS returned text instead of audio. Text:")
               else ret tt) in
          throw (Error "No audio data received from Gemini")
      end
  end.

Definition analyze_failed : string :=
  "无法分析该句子。请检查网络或 API Key 设置。".

Definition analyzeSentence (ai : option Client) (sentence : string)
    (modelLevel : ModelLevel) : Async Value :=
  match ai with
  | None =>
      throw (Error "API Key is missing. Please check your environment configuration.")
  | Some client =>
      let cfg := getModelConfig modelLevel in
      try_catch
        (let! response := send client (analyze_request cfg sentence) in
         match resp_text response with
         | Some (String _ _ as jsonText) =>
             let! parsedData := lift (JSON_parse jsonText) in
             let! correction := lift (get_prop parsedData "correction") in
             let! englishSentence :=
               (if truthy correction then lift (get_prop correction "corrected")
                else ret (Str sentence)) in
             ret (Obj (set_prop (spread parsedData) "englishSentence" englishSentence))
         | _ => throw (Error "Empty response from Gemini")
         end)
        (fun error =>
           do! perform (ConsoleError "Gemini API Error:" error) in
           throw (Error analyze_failed))
  end.

Definition lookup_failed : string := "无法查询该单词，请重试。".

Definition lookupWord (ai : option Client) (word : string)
    (modelLevel : ModelLevel) : Async Value :=
  match ai with
  | None => throw (Error "API Key missing")
  | Some client =>
      let cfg := getModelConfig modelLevel in
      try_catch
        (let! response := send client (lookup_request cfg word) in
         match resp_text response with
         | Some (String _ _ as jsonText) => lift (JSON_parse jsonText)
         | _ => throw (Error "Empty response")
         end)
        (fun error =>
           do! perform (ConsoleError "Dictionary API Error" error) in
           throw (Error lookup_failed))
  end.

(** What [evaluateWriting] returns: the caller's mode and two properties of
    the parsed response, as they came. *)
Record EvaluatedWriting : Type := {
  ew_mode : WritingMode;
  ew_generalFeedback : Value;
  ew_segments : Value
}.

Definition writing_failed : string := "写作分析失败，请检查网络或稍后再试。".

Definition evaluateWriting (ai : option Client) (text : string)
    (mode : WritingMode) (modelLevel : ModelLevel) : Async EvaluatedWriting :=
  match ai with
  | None => throw (Error "API Key missing")
  | Some client =>
      let cfg := getModelConfig modelLevel in
      try_catch
        (let! response := send client (writing_request cfg mode text) in
         match resp_text response with
         | Some (String _ _ as jsonText) =>
             let! parsed := lift (JSON_parse jsonText) in
             let! generalFeedback := lift (get_prop parsed "generalFeedback") in
             let! segments := lift (get_prop parsed "segments") in
             ret {| ew_mode := mode;
                    ew_generalFeedback := generalFeedback;
                    ew_segments := segments |}
         | _ => throw (Error "Empty response")
         end)
        (fun error =>
           do! perform (ConsoleError "Writing Evaluation API Error" error) in
           throw (Error writing_failed))
  end.

Record Message : Type := {
  msg_fromUser : bool;
  msg_content : string
}.

(** [contextContent || '...']: what the system instruction quotes. *)
Definition context_shown (contextType : ContextType)
    (contextContent : option string) : string :=
  match contextContent with
  | Some (String _ _ as content) => content
  | _ =>
      match contextType with
      | ctx_sentence => "用户暂未输入句子"
      | ctx_word => "用户暂未查询单词"
      | ctx_writing => "用户暂未输入文章"
      end
  end.

Definition getChatResponse (ai : option Client) (history : list Message)
    (contextContent : option string) (userMessage : string)
    (contextType : ContextType) : Async (option string) :=
  match ai with
  | None => throw (Error "API Key missing")
  | Some client =>
      let! result := send client
        (SendMessage "gemini-2.5-flash" contextType
           (context_shown contextType contextContent) userMessage) in
      ret (resp_text result)
  end.

End Service.

(** ** The improved document in the UI *)

(** [Array.prototype.join]: the elements in index order, [sep] between
    neighbours. *)
Definition Array_join (sep : string) (parts : list string) : string :=
  String.concat sep parts.

(** [x || null] on a string that may be missing. *)
Definition or_null (s : option string) : option string :=
  match s with
  | Some (String _ _ as x) => Some x
  | _ => None
  end.

Module WritingPage.

(** [copyFullText]: what is written to the clipboard, if anything. *)
Definition copyFullText (result : option WritingResult) : option string :=
  match result with
  | None => None
  | Some r => Some (Array_join "" (map seg_text (wr_segments r)))
  end.

(** The [fullText] prop handed to [SyntaxModeTextRenderer]. *)
Definition fullText (result : WritingResult) : string :=
  Array_join "" (map seg_text (wr_segments result)).

End WritingPage.

Module App.

Inductive Tab : Type := analyzer | dictionary | writing.

(** [assistantContextContent] and [contextType], from the active tab and the
    three results ([englishSentence] of the analysis, [word] of the
    dictionary entry, the writing result). *)
Definition assistantContext (activeTab : Tab)
    (analyzerSentence dictionaryWord : option string)
    (writingResult : option WritingResult) : option string * ContextType :=
  match activeTab with
  | analyzer => (or_null analyzerSentence, ctx_sentence)
  | dictionary => (or_null dictionaryWord, ctx_word)
  | writing =>
      (or_null (option_map
                  (fun r => Array_join "" (map seg_text (wr_segments r)))
                  writingResult),
       ctx_writing)
  end.

End App.

(** ** components/ResultDisplay.tsx: the audio cache *)

(** The component between two events of the browser's loop: its props, its
    two state hooks, its three refs, and what its async functions wait for.
    One [step] is one event run to completion; the continuations of a
    promise that settles run back to back, in the order in which they were
    suspended. A hook set during an event is read by the next one, the
    component having rendered in between. [generateSpeech] is seen from
    outside: a call, and later the settling of its promise.
    [createBufferSource] and [source.start] are taken not to throw. *)

Module ResultDisplay.

(** A call of [generateSpeech]: the text it was given and the state of the
    promise it returned. A promise is named by the position of its call. *)
Inductive PromiseState : Type := Pending | Fulfilled | Rejected.

Record SpeechCall : Type := {
  sc_text : string;
  sc_state : PromiseState
}.

(** The [AudioBuffer] a call resolves to, by the text it speaks and the call
    that produced it. *)
Record SpeechBuffer : Type := {
  spoken : string;
  from_call : nat
}.

(** The [await]s of the component, each with the [result.englishSentence] of
    the render whose closure is suspended there. *)
Inductive Waiter : Type :=
  | PrefetchAwait (sentence : string)     (* prefetchAudio: await promise *)
  | PlayAwaitStored (sentence : string)   (* playAudio: await audioPromiseRef.current *)
  | PlayAwaitFresh (sentence : string).   (* playAudio: await generateSpeech(...) *)

Record State : Type := {
  englishSentence : string;          (* result.englishSentence of the last render *)
  isAudioPlaying : bool;
  isAudioLoading : bool;
  audioCache : option SpeechBuffer;  (* audioCacheRef.current *)
  audioPromise : option nat;         (* audioPromiseRef.current *)
  currentSentence : string;          (* currentSentenceRef.current *)
  calls : list SpeechCall;           (* the generateSpeech calls made so far *)
  waiters : list (nat * Waiter);     (* suspended awaits, by awaited promise *)
  resuming : list string;            (* playAudio suspended at context.resume() *)
  alerts : nat;                      (* alert(...) shown so far *)
  started : list SpeechBuffer        (* source.start(0), latest last *)
}.

Definition set_englishSentence (s : string) (st : State) : State :=
  {| englishSentence := s; isAudioPlaying := isAudioPlaying st;
     isAudioLoading := isAudioLoading st; audioCache := audioCache st;
     audioPromise := audioPromise st; currentSentence := currentSentence st;
     calls := calls st; waiters := waiters st; resuming := resuming st;
     alerts := alerts st; started := started st |}.

Definition setIsAudioPlaying (b : bool) (st : State) : State :=
  {| englishSentence := englishSentence st; isAudioPlaying := b;
     isAudioLoading := isAudioLoading st; audioCache := audioCache st;
     audioPromise := audioPromise st; currentSentence := currentSentence st;
     calls := calls st; waiters := waiters st; resuming := resuming st;
     alerts := alerts st; started := started st |}.

Definition setIsAudioLoading (b : bool) (st : State) : State :=
  {| englishSentence := englishSentence st; isAudioPlaying := isAudioPlaying st;
     isAudioLoading := b; audioCache := audioCache st;
     audioPromise := audioPromise st; currentSentence := currentSentence st;
     calls := calls st; waiters := waiters st; resuming := resuming st;
     alerts := alerts st; started := started st |}.

Definition set_audioCache (c : option SpeechBuffer) (st : State) : State :=
  {| englishSentence := englishSentence st; isAudioPlaying := isAudioPlaying st;
     isAudioLoading := isAudioLoading st; audioCache := c;
     audioPromise := audioPromise st; currentSentence := currentSentence st;
     calls := calls st; waiters := waiters st; resuming := resuming st;
     alerts := alerts st; started := started st |}.

Definition set_audioPromise (p : option nat) (st : State) : State :=
  {| englishSentence := englishSentence st; isAudioPlaying := isAudioPlaying st;
     isAudioLoading := isAudioLoading st; audioCache := audioCache st;
     audioPromise := p; currentSentence := currentSentence st;
     calls := calls st; waiters := waiters st; resuming := resuming st;
     alerts := alerts st; started := started st |}.

Definition set_currentSentence (s : string) (st : State) : State :=
  {| englishSentence := englishSentence st; isAudioPlaying := isAudioPlaying st;
     isAudioLoading := isAudioLoading st; audioCache := audioCache st;
     audioPromise := audioPromise st; currentSentence := s;
     calls := calls st; waiters := waiters st; resuming := resuming st;
     alerts := alerts st; started := started st |}.

Definition set_calls (cs : list SpeechCall) (st : State) : State :=
  {| englishSentence := englishSentence st; isAudioPlaying := isAudioPlaying st;
     isAudioLoading := isAudioLoading st; audioCache := audioCache st;
     audioPromise := audioPromise st; currentSentence := currentSentence st;
     calls := cs; waiters := waiters st; resuming := resuming st;
     alerts := alerts st; started := started st |}.

Definition set_waiters (ws : list (nat * Waiter)) (st : State) : State :=
  {| englishSentence := englishSentence st; isAudioPlaying := isAudioPlaying st;
     isAudioLoading := isAudioLoading st; audioCache := audioCache st;
     audioPromise := audioPromise st; currentSentence := currentSentence st;
     calls := calls st; waiters := ws; resuming := resuming st;
     alerts := alerts st; started := started st |}.

Definition set_resuming (rs : list string) (st : State) : State :=
  {| englishSentence := englishSentence st; isAudioPlaying := isAudioPlaying st;
     isAudioLoading := isAudioLoading st; audioCache := audioCache st;
     audioPromise := audioPromise st; currentSentence := currentSentence st;
     calls := calls st; waiters := waiters st; resuming := rs;
     alerts := alerts st; started := started st |}.

Definition alert (st : State) : State :=
  {| englishSentence := englishSentence st; isAudioPlaying := isAudioPlaying st;
     isAudioLoading := isAudioLoading st; audioCache := audioCache st;
     audioPromise := audioPromise st; currentSentence := currentSentence st;
     calls := calls st; waiters := waiters st; resuming := resuming st;
     alerts := S (alerts st); started := started st |}.

Definition source_start (b : SpeechBuffer) (st : State) : State :=
  {| englishSentence := englishSentence st; isAudioPlaying := isAudioPlaying st;
     isAudioLoading := isAudioLoading st; audioCache := audioCache st;
     audioPromise := audioPromise st; currentSentence := currentSentence st;
     calls := calls st; waiters := waiters st; resuming := resuming st;
     alerts := alerts st; started := started st ++ [b] |}.

(** [generateSpeech(text)]: a new call, and the name of its promise. *)
Definition call_generateSpeech (text : string) (st : State) : nat * State :=
  (length (calls st),
   set_calls (calls st ++ [{| sc_text := text; sc_state := Pending |}]) st).

Definition await (p : nat) (w : Waiter) (st : State) : State :=
  set_waiters (waiters st ++ [(p, w)]) st.

(** The buffer the promise of call [p] is fulfilled with. *)
Definition buffer_of (p : nat) (st : State) : SpeechBuffer :=
  {| spoken := default EmptyString (sc_text <$> calls st !! p);
     from_call := p |}.

(** [playAudio], from "Update cache" on, with a buffer in hand: lines 86-87
    and 90-96. *)
Definition play_fetched (b : SpeechBuffer) (st : State) : State :=
  source_start b
    (setIsAudioPlaying true
       (setIsAudioLoading false
          (set_audioCache (Some b) st))).

(** The [catch] of [playAudio], lines 99-105. *)
Definition play_failed (st : State) : State :=
  alert
    (set_audioPromise None
       (setIsAudioPlaying false
          (setIsAudioLoading false st))).

(** What runs when the awaited promise [p] settles ([ok]: fulfilled). *)
Definition resume_waiter (p : nat) (ok : bool) (w : Waiter) (st : State) : State :=
  match w, ok with
  | PrefetchAwait sentence, true =>
      if String.eqb (currentSentence st) sentence
      then set_audioCache (Some (buffer_of p st)) st
      else st
  | PrefetchAwait _, false => st            (* console.error *)
  | PlayAwaitStored _, true => play_fetched (buffer_of p st) st
  | PlayAwaitStored sentence, false =>
      let '(p', st') := call_generateSpeech sentence st in
      await p' (PlayAwaitFresh sentence) st'
  | PlayAwaitFresh _, true => play_fetched (buffer_of p st) st
  | PlayAwaitFresh _, false => play_failed st
  end.

(** [await p]: suspended while [p] is pending; on a settled promise the
    continuation runs before any other event. *)
Definition await_promise (p : nat) (w : Waiter) (st : State) : State :=
  match sc_state <$> calls st !! p with
  | Some Fulfilled => resume_waiter p true w st
  | Some Rejected => resume_waiter p false w st
  | _ => await p w st
  end.

(** The effect of [useEffect(..., [result.englishSentence])]: lines 33-54,
    up to the [await] of [prefetchAudio]. *)
Definition prefetch_effect (st : State) : State :=
  let sentence := englishSentence st in
  let st1 := set_currentSentence sentence
               (set_audioPromise None (set_audioCache None st)) in
  let '(promise, st2) := call_generateSpeech sentence st1 in
  await promise (PrefetchAwait sentence) (set_audioPromise (Some promise) st2).

(** [playAudio] from [try] on (lines 66-97), in the closure of the render
    that showed [sentence]. *)
Definition playAudio_body (sentence : string) (st : State) : State :=
  match audioCache st with
  | Some audioBuffer =>
      source_start audioBuffer (setIsAudioPlaying true st)
  | None =>
      let st1 := setIsAudioLoading true st in
      match audioPromise st1 with
      | Some p => await_promise p (PlayAwaitStored sentence) st1
      | None =>
          let '(p, st2) := call_generateSpeech sentence st1 in
          await p (PlayAwaitFresh sentence) st2
      end
  end.

(** [playAudio]; [suspended] is [context.state === 'suspended']. *)
Definition playAudio (suspended : bool) (st : State) : State :=
  if isAudioPlaying st then st
  else if suspended
       then set_resuming (resuming st ++ [englishSentence st]) st
       else playAudio_body (englishSentence st) st.

Inductive Event : Type :=
  | Render (sentence : string)       (* the parent passes a result *)
  | Click (suspended : bool)         (* the play button *)
  | Resumed (i : nat) (ok : bool)    (* context.resume() of the i-th waiting call settles *)
  | Settle (p : nat) (ok : bool)     (* the promise of call p settles *)
  | Ended.                           (* source.onended *)

Definition settle (p : nat) (ok : bool) (st : State) : State :=
  match calls st !! p with
  | Some {| sc_text := text; sc_state := Pending |} =>
      let settled := {| sc_text := text;
                        sc_state := if ok then Fulfilled else Rejected |} in
      let mine := List.filter (fun '(q, _) => Nat.eqb q p) (waiters st) in
      let others := List.filter (fun '(q, _) => negb (Nat.eqb q p)) (waiters st) in
      fold_left (fun s '(_, w) => resume_waiter p ok w s) mine
        (set_waiters others (set_calls (<[ p := settled ]> (calls st)) st))
  | _ => st
  end.

Definition step (st : State) (e : Event) : State :=
  match e with
  | Render sentence =>
      if String.eqb sentence (englishSentence st) then st
      else prefetch_effect (set_englishSentence sentence st)
  | Click suspended =>
      if isAudioLoading st then st        (* disabled={isAudioLoading} *)
      else playAudio suspended st
  | Resumed i ok =>
      match resuming st !! i with
      | Some sentence =>
          let st' := set_resuming (delete i (resuming st)) st in
          if ok then playAudio_body sentence st' else st'
      | None => st
      end
  | Settle p ok => settle p ok st
  | Ended => setIsAudioPlaying false st
  end.

(** The component after its first render and the first run of the effect. *)
Definition mount (sentence : string) : State :=
  prefetch_effect
    {| englishSentence := sentence; isAudioPlaying := false;
       isAudioLoading := false; audioCache := None; audioPromise := None;
       currentSentence := sentence; calls := []; waiters := [];
       resuming := []; alerts := 0; started := [] |}.

Definition run (st : State) (trace : list Event) : State :=
  fold_left step trace st.

(** Calls whose promise is still pending and that were given [text]. *)
Definition in_flight (text : string) (st : State) : list SpeechCall :=
  List.filter (fun c => String.eqb (sc_text c) text
                   && match sc_state c with Pending => true | _ => false end)
         (calls st).

(** The runs of the effect along a trace, from a render that shows [shown]. *)
Fixpoint activations (shown : string) (trace : list Event) : nat :=
  match trace with
  | [] => 0
  | Render sentence :: rest =>
      if String.eqb sentence shown then activations shown rest
      else S (activations sentence rest)
  | _ :: rest => activations shown rest
  end.

Definition is_failure (e : Event) : bool :=
  match e with
  | Settle _ false => true
  | _ => false
  end.

Definition not_rejected (c : SpeechCall) : Prop := sc_state c <> Rejected.

(** What no failure can disturb: a promise is stored and no call has been
    rejected. *)
Definition undisturbed (st : State) : Prop :=
  (exists p, audioPromise st = Some p) /\ Forall not_rejected (calls st).

(** Continuations of [playAudio], as opposed to the one of the prefetch. *)
Definition is_play (w : Waiter) : bool :=
  match w with
  | PrefetchAwait _ => false
  | _ => true
  end.

(** The text call [p] was given, when there is such a call. *)
Definition text_of (st : State) (p : nat) : option string :=
  sc_text <$> calls st !! p.

Definition pending (st : State) (p : nat) : Prop :=
  exists text, calls st !! p = Some {| sc_text := text; sc_state := Pending |}.

(** What holds of the refs and of the suspended awaits after every event. *)
Definition coherent (st : State) : Prop :=
  currentSentence st = englishSentence st
  /\ (forall p, audioPromise st = Some p ->
                text_of st p = Some (currentSentence st))
  /\ (forall p w, In (p, w) (waiters st) -> pending st p).

(** A [playAudio] is suspended at an await. *)
Definition play_suspended (ws : list (nat * Waiter)) : Prop :=
  exists p w, In (p, w) ws /\ is_play w = true.

(** The [result.englishSentence] in the closure suspended at an await. *)
Definition closure_of (w : Waiter) : string :=
  match w with
  | PrefetchAwait s | PlayAwaitStored s | PlayAwaitFresh s => s
  end.

(** No [playAudio] is suspended, at an await of a speech promise or at
    [context.resume()]. *)
Definition idle (st : State) : bool :=
  forallb (fun '(_, w) => negb (is_play w)) (waiters st)
  && match resuming st with [] => true | _ => false end.

(** Along the trace, from [st] on: the sentence only changes while no
    [playAudio] is suspended. *)
Fixpoint renders_when_idle (st : State) (trace : list Event) : bool :=
  match trace with
  | [] => true
  | e :: rest =>
      match e with
      | Render sentence =>
          String.eqb sentence (englishSentence st) || idle st
      | _ => true
      end
      && renders_when_idle (step st e) rest
  end.

(** The cache, the awaits and the resumes all belong to the current
    sentence: each await is on a call that was given the sentence of its
    closure. *)
Definition up_to_date (st : State) : Prop :=
  (forall b, audioCache st = Some b -> spoken b = currentSentence st)
  /\ (forall p w, In (p, w) (waiters st) ->
        text_of st p = Some (closure_of w)
        /\ (is_play w = true -> closure_of w = currentSentence st))
  /\ Forall (fun s => s = currentSentence st) (resuming st).

(** The promises awaited by a [playAudio] that made the call itself. *)
Fixpoint fresh_ids (ws : list (nat * Waiter)) : list nat :=
  match ws with
  | [] => []
  | (p, PlayAwaitFresh _) :: rest => p :: fresh_ids rest
  | _ :: rest => fresh_ids rest
  end.

(** The rejections along a trace. *)
Definition failures (trace : list Event) : nat :=
  length (List.filter is_failure trace).


(** [playAudio] suspended at the await of the stored promise. *)
Definition is_stored (w : nat * Waiter) : bool :=
  match snd w with
  | PlayAwaitStored _ => true
  | _ => false
  end.

(** The suspended calls of [playAudio] that have not called
    [generateSpeech] themselves: those that await the stored promise and
    those that await [context.resume()]. *)
Definition owed (st : State) : nat :=
  length (List.filter is_stored (waiters st)) + length (resuming st).

Definition is_click (e : Event) : bool :=
  match e with
  | Click _ => true
  | _ => false
  end.

(** The times the play button is pressed along a trace. *)
Definition clicks (trace : list Event) : nat :=
  length (List.filter is_click trace).

End ResultDisplay.

(** ** Example data *)

Module Examples.

Definition dq : string := String (ascii_of_nat 34) EmptyString.
Definition quoted (s : string) : string := (dq ++ s ++ dq)%string.

(** The response text [{"correction":{"corrected":"I go."}}]. *)
Definition corrected_json : string :=
  ("{" ++ quoted "correction" ++ ":{" ++ quoted "corrected" ++ ":"
       ++ quoted "I go." ++ "}}")%string.

(** [JSON.parse] on the texts used below; anything else is not JSON here. *)
Definition parse (text : string) : Completion Value :=
  if String.eqb text corrected_json
  then Normal (Obj [("correction"%string,
                     Obj [("corrected"%string, Str "I go.")])])
  else if String.eqb text "{}" then Normal (Obj [])
  else if String.eqb text "null" then Normal Null
  else Throw SyntaxError.

Definition reply (text : option string) : Response :=
  {| resp_text := text; resp_inlineData := None; resp_partText := None |}.

(** Providers that answer every request the same way. *)
Definition answering (text : option string) : Client :=
  fun _ => Normal (reply text).
Definition offline : Client := fun _ => Throw (HostFailure 0).

(** A provider that answers with inline audio. *)
Definition speaking (base64 : string) : Client :=
  fun _ => Normal {| resp_text := None; resp_inlineData := Some base64;
                     resp_partText := None |}.

(** A writing result without segments (the model changed nothing and
    returned nothing). *)
Definition no_segments : WritingResult :=
  {| wr_mode := fix_; wr_generalFeedback := "ok"; wr_segments := [] |}.


(** Six bytes of PCM: the samples 0, 32767 and -32768. *)
Definition pcm : Uint8Array := [0; 0; 255; 127; 0; 128]%Z.
Definition pcm_base64 : string := "AAD/fwCA".
Definition atob (text : string) : Completion string :=
  if String.eqb text pcm_base64
  then Normal (string_of_list_ascii
                 (map ascii_of_nat [0; 0; 255; 127; 0; 128]%nat))
  else Throw (DOMException "InvalidCharacterError").
Definition pcm_buffer : AudioBuffer :=
  {| ab_sampleRate := 24000;
     ab_length := 3;
     ab_channels := [[Finite (0 # 32768); Finite (32767 # 32768);
                      Finite (-32768 # 32768)]] |}.

End Examples.

(** The response gives [JSON.parse] nothing, or nothing it accepts. *)
Definition malformed (JSON_parse : string -> Completion Value)
    (response : Response) : Prop :=
  match resp_text response with
  | Some (String _ _ as jsonText) => exists e, JSON_parse jsonText = Throw e
  | _ => True
  end.

(** The segment texts appended one after the other, first to last. *)
Definition texts_in_order (segments : list WritingSegment) : string :=
  fold_right (fun s rest => (seg_text s ++ rest)%string) EmptyString segments.

(** A sample the decoder may produce: a number between -1 and 1. *)
Definition unit_sample (n : Number_) : Prop :=
  match n with
  | Finite q => (-1 <= q <= 1)%Q
  | _ => False
  end.

Definition is_int16 (x : Z) : Prop := (-32768 <= x <= 32767)%Z.

(** ** The diff view of the writing page *)

Module WritingView.

(** What [UnifiedSegmentRenderer] puts on the page, class names apart. *)
Inductive Node : Type :=
  | Plain (text : string)      (* <span>{segment.text}</span> *)
  | Struck (text : string)     (* the line-through span of segment.original *)
  | Arrow                      (* <ArrowRight /> *)
  | Bold (text : string).      (* the font-bold span of segment.text *)

Definition truthy_opt (s : option string) : bool :=
  truthy_string (default EmptyString s).

(** [UnifiedSegmentRenderer]: [x && <span>...</span>] renders the span when
    [x] is truthy and nothing otherwise. *)
Definition UnifiedSegmentRenderer (segment : WritingSegment) : list Node :=
  match seg_type segment with
  | unchanged => [Plain (seg_text segment)]
  | change =>
      (if truthy_opt (seg_original segment)
       then [Struck (default EmptyString (seg_original segment))] else [])
      ++ (if truthy_opt (seg_original segment) && truthy_string (seg_text segment)
          then [Arrow] else [])
      ++ (if truthy_string (seg_text segment)
          then [Bold (seg_text segment)] else [])
  end.

(** [result.segments.map((segment, idx) => <UnifiedSegmentRenderer ... />)] *)
Definition diff_view (result : WritingResult) : list Node :=
  flat_map UnifiedSegmentRenderer (wr_segments result).

(** [result.segments.filter(s => s.type === 'change').length] *)
Definition change_count (result : WritingResult) : nat :=
  length (List.filter
            (fun s => match seg_type s with change => true | unchanged => false end)
            (wr_segments result)).

(** The text of the page without the struck-out spans, and its text
    without the bold ones. *)
Fixpoint revised_text (nodes : list Node) : string :=
  match nodes with
  | [] => EmptyString
  | Plain t :: rest | Bold t :: rest => (t ++ revised_text rest)%string
  | _ :: rest => revised_text rest
  end.

Fixpoint struck_text (nodes : list Node) : string :=
  match nodes with
  | [] => EmptyString
  | Plain t :: rest | Struck t :: rest => (t ++ struck_text rest)%string
  | _ :: rest => struck_text rest
  end.

(** [segment.original && segment.text && <ArrowRight />] is rendered. *)
Definition arrow_shown (s : WritingSegment) : bool :=
  match seg_type s with
  | change => truthy_opt (seg_original s) && truthy_string (seg_text s)
  | unchanged => false
  end.

Definition arrows (nodes : list Node) : nat :=
  length (List.filter (fun n => match n with Arrow => true | _ => false end)
            nodes).

End WritingView.

(** ** The handlers that await the service *)

(** The handlers of the pages have one shape,
    [if (guard) return; before; try { const data = await call; rest }
     catch (err) { rejected } finally { at_last }],
    and run in two parts: up to the [await] when the handler is invoked,
    and from there on when the promise has settled.  Between the two, other
    events run, further invocations of the same handler among them.  The
    request of the call leaves when the handler is invoked; what the service
    logs, it logs when the answer is there. *)

Module AsyncHandler.

Definition is_request (e : Effect) : bool :=
  match e with
  | Net _ => true
  | _ => false
  end.

(** [const data = await call; rest data]: the rest of the [try] block, to be
    run on the state of the time. *)
Definition and_then {A B} (call : Async A) (rest : A -> B) : Async B :=
  (effects call,
   match outcome call with
   | Normal data => Normal (rest data)
   | Throw err => Throw err
   end).

Section Machine.

(** The state of the component, the arguments of the handlers (with what
    their closures read), and the other events of the component. *)
Variables UI Args Act : Type.

Record Handler : Type := {
  accepts : Args -> UI -> bool;                       (* the guard passes *)
  before : Args -> UI -> UI;                          (* up to the await *)
  awaited : Args -> UI -> Async (UI -> UI);           (* the try block *)
  rejected : Args -> Thrown -> UI -> UI * list Effect; (* the catch block *)
  at_last : Args -> UI -> UI;                         (* the finally block *)
  act : Act -> UI -> UI                               (* the other events *)
}.

(** A handler at its [await]. *)
Record Suspended : Type := {
  s_args : Args;
  s_later : list Effect;               (* what the service logs on the answer *)
  s_outcome : Completion (UI -> UI)    (* how the promise settles *)
}.

Record Running : Type := {
  ui : UI;
  log : list Effect;                   (* the requests sent and the console *)
  suspended : list Suspended
}.

Inductive Event : Type :=
  | Invoke (args : Args)     (* the user action *)
  | Settle (i : nat)         (* the promise of the i-th suspended call settles *)
  | Other (a : Act).

Definition step (h : Handler) (st : Running) (e : Event) : Running :=
  match e with
  | Invoke args =>
      if accepts h args (ui st) then
        let call := awaited h args (ui st) in
        {| ui := before h args (ui st);
           log := log st ++ List.filter is_request (effects call);
           suspended := suspended st ++
             [{| s_args := args;
                 s_later := List.filter (fun e => negb (is_request e))
                              (effects call);
                 s_outcome := outcome call |}] |}
      else st
  | Settle i =>
      match suspended st !! i with
      | Some p =>
          let '(s, logged) :=
            match s_outcome p with
            | Normal rest => (rest (ui st), [])
            | Throw err => rejected h (s_args p) err (ui st)
            end in
          {| ui := at_last h (s_args p) s;
             log := log st ++ s_later p ++ logged;
             suspended := delete i (suspended st) |}
      | None => st
      end
  | Other a =>
      {| ui := act h a (ui st); log := log st; suspended := suspended st |}
  end.

Definition run (h : Handler) (st : Running) (trace : list Event) : Running :=
  fold_left (step h) trace st.

Definition start (s : UI) : Running :=
  {| ui := s; log := []; suspended := [] |}.

(** The user actions of a trace. *)
Fixpoint invocations (trace : list Event) : nat :=
  match trace with
  | [] => 0
  | Invoke _ :: rest => S (invocations rest)
  | _ :: rest => invocations rest
  end.

(** No second fetch: whatever the events and however the promises settle,
    the requests sent are at most one for each user action. *)
Definition no_retry (h : Handler) : Prop :=
  forall (s : UI) (trace : list Event),
    length (requests (log (run h (start s) trace))) <= invocations trace.

(** What the settlement of a rejected call does: no request, and [seen]. *)
Definition on_failure (h : Handler)
    (seen : Args -> Thrown -> UI -> list Effect -> Prop) : Prop :=
  forall (st : Running) (i : nat) (p : Suspended) (err : Thrown),
    suspended st !! i = Some p ->
    s_outcome p = Throw err ->
    exists logged,
      log (step h st (Settle i)) = log st ++ s_later p ++ logged
      /\ requests logged = []
      /\ seen (s_args p) err (ui (step h st (Settle i))) logged.

(** What the service logs on the answer holds no request. *)
Definition quiet (st : Running) : Prop :=
  Forall (fun p => requests (s_later p) = []) (suspended st).

End Machine.

Arguments accepts {UI Args Act} _ _ _.
Arguments before {UI Args Act} _ _ _.
Arguments awaited {UI Args Act} _ _ _.
Arguments rejected {UI Args Act} _ _ _ _.
Arguments at_last {UI Args Act} _ _ _.
Arguments act {UI Args Act} _ _ _.
Arguments s_args {UI Args} _.
Arguments s_later {UI Args} _.
Arguments s_outcome {UI Args} _.
Arguments ui {UI Args} _.
Arguments log {UI Args} _.
Arguments suspended {UI Args} _.
Arguments Invoke {Args Act} _.
Arguments Settle {Args Act} _.
Arguments Other {Args Act} _.
Arguments step {UI Args Act} _ _ _.
Arguments run {UI Args Act} _ _ _.
Arguments start {UI Args} _.
Arguments invocations {Args Act} _.
Arguments no_retry {UI Args Act} _.
Arguments on_failure {UI Args Act} _ _.
Arguments quiet {UI Args} _.

Section Messages.

(** The [message] of an exception raised by the host. *)
Variable host_message : Thrown -> string.

Definition message_of (err : Thrown) : string :=
  match err with
  | Error message => message
  | _ => host_message err
  end.

(** [err.message || fallback] *)
Definition message_or (err : Thrown) (fallback : string) : string :=
  if truthy_string (message_of err) then message_of err else fallback.

End Messages.

End AsyncHandler.

(** The pages, each during one mounting of its component.  [trim] is
    [String.prototype.trim]; [ai] is the client of the service module;
    [console.error(err)] is logged without a label. *)

(** *** App.tsx: [handleAnalyze] *)

Module AppAnalyzer.

Import AsyncHandler.

Record Analyzer : Type := {
  isAnalyzerLoading : bool;
  analyzerResult : Value;             (* AnalysisResult | null *)
  analyzerError : option string
}.

Definition initial : Analyzer :=
  {| isAnalyzerLoading := false; analyzerResult := Null;
     analyzerError := None |}.

Section AppAnalyzer.

Variable trim : string -> string.
Variable JSON_parse : string -> Completion Value.
Variable host_message : Thrown -> string.
Variable ai : option Client.

(** [handleAnalyze(sentence)], with the [modelLevel] of the time. *)
Definition handleAnalyze : Handler Analyzer (string * ModelLevel) Empty_set :=
  {| accepts := fun '(sentence, _) _ => truthy_string (trim sentence);
     before := fun _ _ =>
       {| isAnalyzerLoading := true; analyzerResult := Null;
          analyzerError := None |};
     awaited := fun '(sentence, modelLevel) _ =>
       and_then (analyzeSentence JSON_parse ai sentence modelLevel)
         (fun data s =>
            {| isAnalyzerLoading := isAnalyzerLoading s;
               analyzerResult := data;
               analyzerError := analyzerError s |});
     rejected := fun _ err s =>
       ({| isAnalyzerLoading := isAnalyzerLoading s;
           analyzerResult := analyzerResult s;
           analyzerError :=
             Some (message_or host_message err "分析失败，请稍后再试。") |},
        [ConsoleError EmptyString err]);
     at_last := fun _ s =>
       {| isAnalyzerLoading := false; analyzerResult := analyzerResult s;
          analyzerError := analyzerError s |};
     act := fun (a : Empty_set) _ => match a with end |}.

End AppAnalyzer.

End AppAnalyzer.

(** *** App.tsx: [handleSearch] of [DictionaryPage] *)

Module DictionarySearch.

Import AsyncHandler.

(** The state of [DictionaryPage], with the result that [App] keeps for it
    ([initialResult], [onResultChange]). *)
Record Dictionary : Type := {
  isLoading : bool;
  error : option string;
  result : Value                      (* DictionaryResult | null *)
}.

Definition initial (initialResult : Value) : Dictionary :=
  {| isLoading := false; error := None; result := initialResult |}.

Section DictionarySearch.

Variable trim : string -> string.
Variable JSON_parse : string -> Completion Value.
Variable host_message : Thrown -> string.
Variable ai : option Client.

(** [handleSearch(e)], with the [query] and the [modelLevel] of the time. *)
Definition handleSearch : Handler Dictionary (string * ModelLevel) Empty_set :=
  {| accepts := fun '(query, _) _ => truthy_string (trim query);
     before := fun _ s =>
       {| isLoading := true; error := None; result := result s |};
     awaited := fun '(query, modelLevel) _ =>
       and_then (lookupWord JSON_parse ai query modelLevel)
         (fun data s =>
            {| isLoading := isLoading s; error := error s; result := data |});
     rejected := fun _ err s =>
       ({| isLoading := isLoading s;
           error := Some (message_or host_message err "查询失败，请稍后再试。");
           result := result s |},
        []);
     at_last := fun _ s =>
       {| isLoading := false; error := error s; result := result s |};
     act := fun (a : Empty_set) _ => match a with end |}.

End DictionarySearch.

End DictionarySearch.

(** *** components/WritingPage.tsx: [handleAnalyze], [handleSyntaxAnalyze] *)

Module WritingHandlers.

Import AsyncHandler.

(** The state that the two handlers read or write; [result] is also what
    [App] keeps through [onResultChange].  The sub-states
    [activeSegmentIndex] and [viewMode], which no handler reads, are left
    out. *)
Record Writing : Type := {
  isLoading : bool;
  error : option string;
  showOriginal : bool;
  result : option EvaluatedWriting;   (* WritingResult | null *)
  activeSentence : option string;
  syntaxResult : Value;               (* AnalysisResult | null *)
  isSyntaxLoading : bool
}.

Definition initial (initialResult : option EvaluatedWriting) : Writing :=
  {| isLoading := false; error := None; showOriginal := false;
     result := initialResult; activeSentence := None; syntaxResult := Null;
     isSyntaxLoading := false |}.

(** The effect on [[result]]: the sub-states are reset. *)
Definition result_changed (s : Writing) : Writing :=
  {| isLoading := isLoading s; error := error s;
     showOriginal := showOriginal s; result := result s;
     activeSentence := None; syntaxResult := Null;
     isSyntaxLoading := isSyntaxLoading s |}.

Definition handleReset (s : Writing) : Writing :=
  result_changed
    {| isLoading := isLoading s; error := error s; showOriginal := false;
       result := None; activeSentence := None; syntaxResult := Null;
       isSyntaxLoading := isSyntaxLoading s |}.

(** The two handlers, with what their closures read. *)
Inductive Call : Type :=
  | Analyze (inputText : string) (mode : WritingMode) (modelLevel : ModelLevel)
  | SyntaxAnalyze (sentence : string) (modelLevel : ModelLevel).

Inductive Act : Type :=
  | Reset.

Section WritingHandlers.

Variable trim : string -> string.
Variable JSON_parse : string -> Completion Value.
Variable host_message : Thrown -> string.
Variable ai : option Client.

Definition handlers : Handler Writing Call Act :=
  {| accepts := fun call s =>
       match call with
       | Analyze inputText _ _ => truthy_string (trim inputText)
       | SyntaxAnalyze sentence _ =>
           (* if (sentence === activeSentence && syntaxResult) return; *)
           negb (match activeSentence s with
                 | Some active => String.eqb sentence active
                 | None => false
                 end && truthy (syntaxResult s))
       end;
     before := fun call s =>
       match call with
       | Analyze _ _ _ =>
           {| isLoading := true; error := None; showOriginal := false;
              result := result s; activeSentence := activeSentence s;
              syntaxResult := syntaxResult s;
              isSyntaxLoading := isSyntaxLoading s |}
       | SyntaxAnalyze sentence _ =>
           {| isLoading := isLoading s; error := error s;
              showOriginal := showOriginal s; result := result s;
              activeSentence := Some sentence; syntaxResult := Null;
              isSyntaxLoading := true |}
       end;
     awaited := fun call _ =>
       match call with
       | Analyze inputText mode modelLevel =>
           and_then (evaluateWriting JSON_parse ai inputText mode modelLevel)
             (fun data s =>
                result_changed
                  {| isLoading := isLoading s; error := error s;
                     showOriginal := showOriginal s; result := Some data;
                     activeSentence := activeSentence s;
                     syntaxResult := syntaxResult s;
                     isSyntaxLoading := isSyntaxLoading s |})
       | SyntaxAnalyze sentence modelLevel =>
           and_then (analyzeSentence JSON_parse ai sentence modelLevel)
             (fun data s =>
                {| isLoading := isLoading s; error := error s;
                   showOriginal := showOriginal s; result := result s;
                   activeSentence := activeSentence s;
                   syntaxResult := data;
                   isSyntaxLoading := isSyntaxLoading s |})
       end;
     rejected := fun call err s =>
       match call with
       | Analyze _ _ _ =>
           ({| isLoading := isLoading s;
               error :=
                 Some (message_or host_message err "分析失败，请稍后再试。");
               showOriginal := showOriginal s; result := result s;
               activeSentence := activeSentence s;
               syntaxResult := syntaxResult s;
               isSyntaxLoading := isSyntaxLoading s |},
            [])
       | SyntaxAnalyze _ _ => (s, [ConsoleError EmptyString err])
       end;
     at_last := fun call s =>
       match call with
       | Analyze _ _ _ =>
           {| isLoading := false; error := error s;
              showOriginal := showOriginal s; result := result s;
              activeSentence := activeSentence s;
              syntaxResult := syntaxResult s;
              isSyntaxLoading := isSyntaxLoading s |}
       | SyntaxAnalyze _ _ =>
           {| isLoading := isLoading s; error := error s;
              showOriginal := showOriginal s; result := result s;
              activeSentence := activeSentence s;
              syntaxResult := syntaxResult s;
              isSyntaxLoading := false |}
       end;
     act := fun a s => match a with Reset => handleReset s end |}.

End WritingHandlers.

End WritingHandlers.

(** *** App.tsx: [handleSend] of [AiAssistant] *)

Module AiAssistant.

Import AsyncHandler.

(** A message of the chat; the text of a reply may be [undefined]. *)
Record ChatLine : Type := {
  fromUser : bool;
  content : option string
}.

Record Assistant : Type := {
  messages : list ChatLine;
  inputValue : string;
  isThinking : bool;
  currentContext : option string;     (* the props *)
  contextType : ContextType
}.

Definition says (text : string) : ChatLine :=
  {| fromUser := false; content := Some text |}.

Definition greeting : string :=
  "你好！我是你的 AI 英语助手。有什么可以帮你的吗？".

Definition apology : string := "抱歉，连接出了点问题，请稍后再试。".

Definition loaded (contextType : ContextType) : string :=
  "已加载当前"
  ++ match contextType with
     | ctx_sentence => "句子"
     | ctx_word => "单词"
     | ctx_writing => "文章"
     end
  ++ "内容。你可以针对它向我提问。".

(** The effect on [[currentContext, contextType]]. *)
Definition context_changed (s : Assistant) : Assistant :=
  if WritingView.truthy_opt (currentContext s)
  then {| messages := [says (loaded (contextType s))];
          inputValue := inputValue s; isThinking := isThinking s;
          currentContext := currentContext s;
          contextType := contextType s |}
  else s.

Definition mount (context : option string) (type : ContextType) : Assistant :=
  context_changed
    {| messages := [says greeting]; inputValue := EmptyString;
       isThinking := false; currentContext := context;
       contextType := type |}.

Definition same_context (s : Assistant) (context : option string)
    (type : ContextType) : bool :=
  match currentContext s, context with
  | Some a, Some b => String.eqb a b
  | None, None => true
  | _, _ => false
  end
  && match contextType s, type with
     | ctx_sentence, ctx_sentence | ctx_word, ctx_word
     | ctx_writing, ctx_writing => true
     | _, _ => false
     end.

Inductive Act : Type :=
  | Typed (text : string)                                  (* onChange *)
  | Props (context : option string) (type : ContextType).  (* a render *)

(** The [history] argument, which [getChatResponse] does not read. *)
Definition history_of (messages : list ChatLine) : list Message :=
  map (fun m => {| msg_fromUser := fromUser m;
                   msg_content := default EmptyString (content m) |})
      messages.

Definition add (m : ChatLine) (s : Assistant) : Assistant :=
  {| messages := messages s ++ [m]; inputValue := inputValue s;
     isThinking := isThinking s; currentContext := currentContext s;
     contextType := contextType s |}.

Section AiAssistant.

Variable trim : string -> string.
Variable ai : option Client.

(** [handleSend(content)] *)
Definition handleSend : Handler Assistant string Act :=
  {| accepts := fun content s =>
       truthy_string (trim content) && negb (isThinking s);
     before := fun content s =>
       {| messages := messages s ++ [{| fromUser := true;
                                        content := Some content |}];
          inputValue := EmptyString; isThinking := true;
          currentContext := currentContext s;
          contextType := contextType s |};
     awaited := fun content s =>
       and_then (getChatResponse ai (history_of (messages s))
                   (currentContext s) content (contextType s))
         (fun responseText =>
            add {| fromUser := false; content := responseText |});
     rejected := fun _ _ s => (add (says apology) s, []);
     at_last := fun _ s =>
       {| messages := messages s; inputValue := inputValue s;
          isThinking := false; currentContext := currentContext s;
          contextType := contextType s |};
     act := fun a s =>
       match a with
       | Typed text =>
           {| messages := messages s; inputValue := text;
              isThinking := isThinking s;
              currentContext := currentContext s;
              contextType := contextType s |}
       | Props context type =>
           if same_context s context type then s
           else context_changed
                  {| messages := messages s; inputValue := inputValue s;
                     isThinking := isThinking s; currentContext := context;
                     contextType := type |}
       end |}.

End AiAssistant.

End AiAssistant.

(** The message with which a JSON operation of the service fails. *)
Definition service_message (ai : option Client) (missing failed : string)
    : string :=
  match ai with
  | None => missing
  | Some _ => failed
  end.

(** ** components/DictionaryPage.tsx: the play button *)

(** [playAudio] of [DictionaryPage] between two events, in the manner of
    [ResultDisplay]: the hook [isAudioPlaying], the calls of
    [generateSpeech] made so far, what the suspended calls of [playAudio]
    wait for, and the sources that have started and not ended. *)

Module DictionaryAudio.

Import ResultDisplay.

Record State : Type := {
  isAudioPlaying : bool;
  calls : list SpeechCall;
  awaiting : list nat;        (* await generateSpeech(text), by call *)
  resuming : list string;     (* await ctx.resume(), with the text to speak *)
  sounding : nat;             (* sources started whose onended is to come *)
  logged : nat                (* console.error *)
}.

Definition initial : State :=
  {| isAudioPlaying := false; calls := []; awaiting := []; resuming := [];
     sounding := 0; logged := 0 |}.

(** [const buffer = await generateSpeech(text)] *)
Definition fetch (text : string) (st : State) : State :=
  {| isAudioPlaying := isAudioPlaying st;
     calls := calls st ++ [{| sc_text := text; sc_state := Pending |}];
     awaiting := awaiting st ++ [length (calls st)];
     resuming := resuming st;
     sounding := sounding st;
     logged := logged st |}.

(** The [catch]: [console.error(e); setIsAudioPlaying(false)]. *)
Definition failed (st : State) : State :=
  {| isAudioPlaying := false; calls := calls st; awaiting := awaiting st;
     resuming := resuming st; sounding := sounding st;
     logged := S (logged st) |}.

(** [playAudio(text)]; [suspended] is [ctx.state === 'suspended']. *)
Definition playAudio (text : string) (suspended : bool) (st : State) : State :=
  if isAudioPlaying st then st
  else
    let st1 := {| isAudioPlaying := true; calls := calls st;
                  awaiting := awaiting st; resuming := resuming st;
                  sounding := sounding st; logged := logged st |} in
    if suspended
    then {| isAudioPlaying := true; calls := calls st;
            awaiting := awaiting st; resuming := resuming st ++ [text];
            sounding := sounding st; logged := logged st |}
    else fetch text st1.

Inductive Event : Type :=
  | Play (text : string) (suspended : bool)  (* the button, for result.word *)
  | Resumed (i : nat) (ok : bool)            (* ctx.resume() settles *)
  | Settle (p : nat) (ok : bool)             (* the promise of call p settles *)
  | Ended.                                   (* source.onended *)

Definition step (st : State) (e : Event) : State :=
  match e with
  | Play text suspended => playAudio text suspended st
  | Resumed i ok =>
      match resuming st !! i with
      | Some text =>
          let st' := {| isAudioPlaying := isAudioPlaying st; calls := calls st;
                        awaiting := awaiting st;
                        resuming := delete i (resuming st);
                        sounding := sounding st; logged := logged st |} in
          if ok then fetch text st' else failed st'
      | None => st
      end
  | Settle p ok =>
      match calls st !! p with
      | Some {| sc_text := text; sc_state := Pending |} =>
          let settled := {| sc_text := text;
                            sc_state := if ok then Fulfilled else Rejected |} in
          let waited := existsb (Nat.eqb p) (awaiting st) in
          let st' := {| isAudioPlaying := isAudioPlaying st;
                        calls := <[ p := settled ]> (calls st);
                        awaiting := List.filter (fun q => negb (Nat.eqb q p))
                                      (awaiting st);
                        resuming := resuming st;
                        sounding := sounding st; logged := logged st |} in
          if waited then
            if ok
            then {| isAudioPlaying := isAudioPlaying st'; calls := calls st';
                    awaiting := awaiting st'; resuming := resuming st';
                    sounding := S (sounding st'); logged := logged st' |}
            else failed st'
          else st'
      | _ => st
      end
  | Ended =>
      match sounding st with
      | S n => {| isAudioPlaying := false; calls := calls st;
                  awaiting := awaiting st; resuming := resuming st;
                  sounding := n; logged := logged st |}
      | 0 => st
      end
  end.

Definition run (st : State) (trace : list Event) : State :=
  fold_left step trace st.

Definition is_pending (c : SpeechCall) : bool :=
  match sc_state c with Pending => true | _ => false end.

(** The calls whose promise has not settled. *)
Definition in_flight (st : State) : list SpeechCall :=
  List.filter is_pending (calls st).

(** The clicks that are not ignored along a trace, from [st] on. *)
Fixpoint accepted (st : State) (trace : list Event) : nat :=
  match trace with
  | [] => 0
  | e :: rest =>
      match e with
      | Play _ _ => if isAudioPlaying st then 0 else 1
      | _ => 0
      end + accepted (step st e) rest
  end.

(** What is going on: awaited calls, awaited resumes, sounding sources. *)
Definition busy (st : State) : nat :=
  length (awaiting st) + length (resuming st) + sounding st.

(** [isAudioPlaying] is set exactly while one thing is going on, and the
    awaited promises are the pending ones. *)
Definition exclusive (st : State) : Prop :=
  busy st = (if isAudioPlaying st then 1 else 0)
  /\ (forall q, In q (awaiting st)
                <-> exists text, calls st !! q
                                 = Some {| sc_text := text; sc_state := Pending |})
  /\ length (in_flight st) = length (awaiting st).


Definition is_play (e : Event) : bool :=
  match e with
  | Play _ _ => true
  | _ => false
  end.

(** The times the play button is pressed along a trace. *)
Definition plays (trace : list Event) : nat :=
  length (List.filter is_play trace).

End DictionaryAudio.

(** ** Further example data *)

Module MoreExamples.

(** [trim] on strings whose only white space is the space character. *)
Fixpoint drop_spaces (s : string) : string :=
  match s with
  | String " " rest => drop_spaces rest
  | _ => s
  end.

Fixpoint reverse (s acc : string) : string :=
  match s with
  | EmptyString => acc
  | String c rest => reverse rest (String c acc)
  end.

Definition trim (s : string) : string :=
  reverse (drop_spaces (reverse (drop_spaces s) EmptyString)) EmptyString.

Definition host_message (e : Thrown) : string :=
  match e with
  | HostFailure _ => "Failed to fetch"
  | _ => EmptyString
  end.

End MoreExamples.

(** * Properties *)

(** ** Reconstruction of the improved document *)

Lemma append_empty_r (s : string) : (s ++ "")%string = s.
Proof. induction s as [|c s IH]; simpl; [reflexivity | now rewrite IH]. Qed.

Lemma Array_join_cons (x : string) (l : list string) :
  Array_join "" (x :: l) = (x ++ Array_join "" l)%string.
Proof.
  unfold Array_join. destruct l as [|y l]; simpl.
  - now rewrite append_empty_r.
  - reflexivity.
Qed.

Lemma Array_join_texts (segments : list WritingSegment) :
  Array_join "" (map seg_text segments) = texts_in_order segments.
Proof.
  induction segments as [|s segments IH].
  - reflexivity.
  - rewrite map_cons, Array_join_cons, IH. reflexivity.
Qed.

Lemma or_null_truthy (s : string) :
  or_null (Some s) = if truthy_string s then Some s else None.
Proof. destruct s; reflexivity. Qed.

(** C1, as the code has it. For every writing result the clipboard text of
    [copyFullText] and the [fullText] of the syntax view are the segment
    texts joined in index order, which is their concatenation first to last;
    the chat-assistant context is that same string when it is not empty and
    [null] when it is, and the chat request quotes the same text either
    way. *)
Theorem improved_document_by_concatenation
    (r : WritingResult) (sentence word : option string) :
  let document := Array_join "" (map seg_text (wr_segments r)) in
  document = texts_in_order (wr_segments r)
  /\ WritingPage.copyFullText (Some r) = Some document
  /\ WritingPage.fullText r = document
  /\ App.assistantContext App.writing sentence word (Some r)
     = (if truthy_string document then Some document else None, ctx_writing)
  /\ context_shown ctx_writing
       (fst (App.assistantContext App.writing sentence word (Some r)))
     = context_shown ctx_writing (Some document).
Proof.
  intros document. split; [apply Array_join_texts|].
  split; [reflexivity|]. split; [reflexivity|].
  unfold App.assistantContext. cbn [option_map fst].
  fold document. rewrite or_null_truthy.
  split; [reflexivity|]. destruct document; reflexivity.
Qed.

(** C1 as stated fails for the chat assistant: for a result whose joined
    text is empty the context is [null], not the joined text. *)
Lemma chat_context_of_empty_document :
  fst (App.assistantContext App.writing None None (Some Examples.no_segments))
  <> Some (Array_join "" (map seg_text (wr_segments Examples.no_segments))).
Proof. cbn. discriminate. Qed.

(** ** Requests of the service *)

Ltac run_service :=
  unfold analyzeSentence, lookupWord, evaluateWriting, generateSpeech,
    getChatResponse, try_catch, bind, send, lift, ret, throw, perform,
    effects, outcome in *;
  repeat (case_match; simplify_eq/=).

Section ServiceFacts.

Variable atob : string -> Completion string.
Variable JSON_parse : string -> Completion Value.

Lemma analyzeSentence_requests client sentence level :
  requests (effects (analyzeSentence JSON_parse (Some client) sentence level))
  = [analyze_request (getModelConfig level) sentence].
Proof. run_service; reflexivity. Qed.

Lemma lookupWord_requests client word level :
  requests (effects (lookupWord JSON_parse (Some client) word level))
  = [lookup_request (getModelConfig level) word].
Proof. run_service; reflexivity. Qed.

Lemma evaluateWriting_requests client text mode level :
  requests (effects (evaluateWriting JSON_parse (Some client) text mode level))
  = [writing_request (getModelConfig level) mode text].
Proof. run_service; reflexivity. Qed.

Lemma generateSpeech_requests client text :
  requests (effects (generateSpeech atob (Some client) text))
  = [speech_request text].
Proof. run_service; reflexivity. Qed.

Lemma getChatResponse_requests client history context message contextType :
  requests (effects (getChatResponse (Some client) history context message
                       contextType))
  = [SendMessage "gemini-2.5-flash" contextType
       (context_shown contextType context) message].
Proof. run_service; reflexivity. Qed.

End ServiceFacts.

(** C5, as the code has it. The tiers [mini], [quick] and [deep] have the
    budgets 0, 500 and 2000, and the one request each of [analyzeSentence],
    [lookupWord] and [evaluateWriting] sends carries [{ thinkingBudget: 500 }]
    for [quick], [{ thinkingBudget: 2000 }] for [deep] and no thinking
    configuration at all ([undefined]) for [mini]. *)
Theorem tier_budget_in_request
    (JSON_parse : string -> Completion Value) (client : Client)
    (level : ModelLevel) (sentence word text : string) (mode : WritingMode) :
  let carried := match level with
                 | mini => None
                 | quick => Some 500%Z
                 | deep => Some 2000%Z
                 end in
  thinkingBudget (getModelConfig level)
  = match level with mini => 0%Z | quick => 500%Z | deep => 2000%Z end
  /\ (exists p,
        requests (effects (analyzeSentence JSON_parse (Some client) sentence level))
        = [GenerateContent p] /\ gc_thinkingConfig p = carried)
  /\ (exists p,
        requests (effects (lookupWord JSON_parse (Some client) word level))
        = [GenerateContent p] /\ gc_thinkingConfig p = carried)
  /\ (exists p,
        requests (effects (evaluateWriting JSON_parse (Some client) text mode level))
        = [GenerateContent p] /\ gc_thinkingConfig p = carried).
Proof.
  intros carried. split; [destruct level; reflexivity|].
  rewrite analyzeSentence_requests, lookupWord_requests,
    evaluateWriting_requests.
  repeat split; eexists; (split; [reflexivity|]); destruct level; reflexivity.
Qed.

(** C5 as stated fails for the lowest tier: the request of [analyzeSentence]
    at [mini] does not carry the tier's budget 0, it carries no thinking
    configuration. *)
Lemma mini_request_without_budget :
  exists p,
    requests (effects (analyzeSentence Examples.parse (Some Examples.offline)
                         "I go." mini))
    = [GenerateContent p]
    /\ gc_thinkingConfig p = None
    /\ gc_thinkingConfig p <> Some (thinkingBudget (getModelConfig mini)).
Proof. eexists. split; [reflexivity|]. split; [reflexivity|discriminate]. Qed.

(** C6. Without a credential ([process.env.API_KEY] unset, so that [ai] is
    [null]) each of the five operations performs no effect at all, in
    particular sends no request, and throws an [Error]. *)
Theorem missing_credential_is_fatal
    (atob : string -> Completion string)
    (JSON_parse : string -> Completion Value) (provider : Client)
    (text sentence word message : string) (mode : WritingMode)
    (level : ModelLevel) (history : list Message) (context : option string)
    (contextType : ContextType) :
  let ai := make_ai None provider in
  generateSpeech atob ai text = ([], Throw (Error "API Key missing"))
  /\ analyzeSentence JSON_parse ai sentence level
     = ([], Throw (Error
          "API Key is missing. Please check your environment configuration."))
  /\ lookupWord JSON_parse ai word level = ([], Throw (Error "API Key missing"))
  /\ evaluateWriting JSON_parse ai text mode level
     = ([], Throw (Error "API Key missing"))
  /\ getChatResponse ai history context message contextType
     = ([], Throw (Error "API Key missing")).
Proof. repeat split. Qed.

(** C3. When the provider answers [analyzeSentence], [lookupWord] or
    [evaluateWriting] with a response whose text is missing or empty, or is
    text that [JSON.parse] rejects, the operation throws an [Error] with its
    own fixed message. *)
Theorem malformed_response_fixed_message
    (JSON_parse : string -> Completion Value) (client : Client)
    (level : ModelLevel) (response : Response)
    (Hbad : malformed JSON_parse response) :
  (forall sentence,
      client (analyze_request (getModelConfig level) sentence) = Normal response ->
      outcome (analyzeSentence JSON_parse (Some client) sentence level)
      = Throw (Error analyze_failed))
  /\ (forall word,
      client (lookup_request (getModelConfig level) word) = Normal response ->
      outcome (lookupWord JSON_parse (Some client) word level)
      = Throw (Error lookup_failed))
  /\ (forall text mode,
      client (writing_request (getModelConfig level) mode text) = Normal response ->
      outcome (evaluateWriting JSON_parse (Some client) text mode level)
      = Throw (Error writing_failed)).
Proof.
  unfold malformed in Hbad.
  repeat split; intros; run_service; try reflexivity;
    destruct Hbad; congruence.
Qed.

(** C3 at three responses: text that is not JSON, empty text, no text. *)
Lemma malformed_response_fixed_message_witness :
  outcome (analyzeSentence Examples.parse
             (Some (Examples.answering (Some "not json"%string))) "I go." quick)
  = Throw (Error analyze_failed)
  /\ outcome (lookupWord Examples.parse
                (Some (Examples.answering (Some ""%string))) "take up" mini)
     = Throw (Error lookup_failed)
  /\ outcome (evaluateWriting Examples.parse
                (Some (Examples.answering None)) "I goes." fix_ deep)
     = Throw (Error writing_failed).
Proof.
  split; [|split].
  - apply (malformed_response_fixed_message Examples.parse
             (Examples.answering (Some "not json"%string)) quick
             (Examples.reply (Some "not json"%string))).
    + exists SyntaxError. reflexivity.
    + reflexivity.
  - apply (malformed_response_fixed_message Examples.parse
             (Examples.answering (Some ""%string)) mini
             (Examples.reply (Some ""%string))).
    + exact I.
    + reflexivity.
  - apply (malformed_response_fixed_message Examples.parse
             (Examples.answering None) deep (Examples.reply None)).
    + exact I.
    + reflexivity.
Defined.

Lemma assoc_set_prop (props : list (string * Value)) (k : string) (v : Value) :
  assoc k (set_prop props k v) = Some v.
Proof.
  induction props as [|[k' v'] props IH]; simpl.
  - now rewrite String.eqb_refl.
  - destruct (String.eqb k k') eqn:E; simpl; rewrite E; [reflexivity|exact IH].
Qed.

(** C9. When [analyzeSentence] returns, the provider answered with a text
    that [JSON.parse] accepted, and the [englishSentence] of the returned
    object is [parsedData.correction.corrected] when [parsedData.correction]
    is an object (more generally, truthy), and the caller's sentence when
    there is no [correction] (more generally, when it is falsy). *)
Theorem englishSentence_of_analysis
    (JSON_parse : string -> Completion Value) (client : Client)
    (sentence : string) (level : ModelLevel) (result : Value)
    (Hok : outcome (analyzeSentence JSON_parse (Some client) sentence level)
           = Normal result) :
  exists response jsonText parsedData correction,
    client (analyze_request (getModelConfig level) sentence) = Normal response
    /\ resp_text response = Some jsonText
    /\ JSON_parse jsonText = Normal parsedData
    /\ get_prop parsedData "correction" = Normal correction
    /\ (forall props, correction = Obj props ->
          get_prop result "englishSentence"
          = Normal (default Undefined (assoc "corrected" props)))
    /\ (correction = Undefined ->
          get_prop result "englishSentence" = Normal (Str sentence))
    /\ get_prop result "englishSentence"
       = if truthy correction then get_prop correction "corrected"
         else Normal (Str sentence).
Proof.
  run_service.
  all: do 4 eexists; repeat (split; [eassumption || reflexivity|]).
  all: cbn [get_prop]; rewrite assoc_set_prop; cbn [default].
  all: repeat split; intros; subst; simplify_eq/=; try congruence.
  all: repeat match goal with
         | H : truthy _ = _ |- _ => rewrite H
         | H : get_prop _ _ = _ |- _ => rewrite H
         end; reflexivity.
Qed.

(** C9 at a response that corrects [i go.] to [I go.]. *)
Lemma englishSentence_of_analysis_witness :
  exists result,
    outcome (analyzeSentence Examples.parse
               (Some (Examples.answering (Some Examples.corrected_json)))
               "i go." mini) = Normal result
    /\ get_prop result "englishSentence" = Normal (Str "I go.").
Proof.
  eexists. split; [reflexivity|].
  destruct (englishSentence_of_analysis Examples.parse
              (Examples.answering (Some Examples.corrected_json))
              "i go." mini _ eq_refl)
    as (response & jsonText & parsedData & correction
        & Hresp & Htext & Hparse & Hcorr & Hobj & _).
  injection Hresp as <-. injection Htext as <-.
  injection Hparse as <-. injection Hcorr as <-.
  exact (Hobj _ eq_refl).
Defined.

(** ** The PCM decoder *)

Lemma to_int16_range (u : Z) : is_int16 (to_int16 u).
Proof.
  unfold is_int16, to_int16.
  pose proof (Z.mod_pos_bound (u + 32768) 65536 eq_refl). lia.
Qed.

Lemma int16_view_range (bytes : list Z) : Forall is_int16 (int16_view bytes).
Proof.
  induction bytes as [bytes IH] using (induction_ltof1 _ (@length Z)).
  unfold ltof in IH.
  destruct bytes as [|lo [|hi rest]]; simpl; constructor.
  - apply to_int16_range.
  - apply IH. simpl. lia.
Qed.

Lemma int16_view_length (bytes : list Z) :
  length (int16_view bytes) = length bytes / 2.
Proof.
  induction bytes as [bytes IH] using (induction_ltof1 _ (@length Z)).
  unfold ltof in IH.
  destruct bytes as [|lo [|hi rest]]; try reflexivity.
  cbn [int16_view length]. rewrite IH by (simpl; lia).
  change (S (S (length rest))) with (1 * 2 + length rest).
  rewrite Nat.div_add_l by lia. reflexivity.
Qed.

Lemma sample_of_int16 (x : Z) : is_int16 x -> unit_sample (Finite (x # 32768)).
Proof.
  unfold is_int16, unit_sample, Qle. simpl. lia.
Qed.

Lemma sample_at_in_range (dataInt16 : list Z) (k : nat) :
  Forall is_int16 dataInt16 -> k < length dataInt16 ->
  unit_sample (sample_at dataInt16 k).
Proof.
  intros Hall Hk. unfold sample_at.
  destruct (lookup_lt_is_Some_2 dataInt16 k Hk) as [x Hx]. rewrite Hx.
  apply sample_of_int16. rewrite Forall_lookup in Hall. eauto.
Qed.

Lemma fill_channel_in_range (dataInt16 : list Z) (numChannels channel : nat)
    (visited : list nat) (channelData : list Number_) :
  Forall is_int16 dataInt16 ->
  channel < numChannels ->
  length channelData = length dataInt16 / numChannels ->
  Forall unit_sample channelData ->
  Forall unit_sample
    (fill_channel dataInt16 numChannels channel visited channelData).
Proof.
  intros Hall Hch. unfold fill_channel.
  revert channelData. induction visited as [|i visited IH]; intros cd Hlen Hcd.
  - exact Hcd.
  - cbn [fold_left]. apply IH; [now rewrite length_insert|].
    destruct (decide (i < length cd)) as [Hi|Hi].
    + apply Forall_insert; [exact Hcd|].
      apply sample_at_in_range; [exact Hall|].
      rewrite Hlen in Hi.
      pose proof (Nat.Div0.mul_div_le (length dataInt16) numChannels). nia.
    + rewrite list_insert_ge by lia. exact Hcd.
Qed.

Lemma decodeAudioData_inv (data : Uint8Array) (sampleRate : Z)
    (numChannels : nat) (buffer : AudioBuffer) :
  decodeAudioData data sampleRate numChannels = Normal buffer ->
  Nat.even (length data) = true
  /\ numChannels <> 0
  /\ length (int16_view data) / numChannels <> 0
  /\ ab_sampleRate buffer = sampleRate
  /\ ab_length buffer = length (int16_view data) / numChannels
  /\ ab_channels buffer
     = imap (fun channel channelData =>
               fill_channel (int16_view data) numChannels channel
                 (seq 0 (frames_visited (length (int16_view data)) numChannels))
                 channelData)
            (replicate numChannels
               (replicate (length (int16_view data) / numChannels) (Finite 0))).
Proof.
  unfold decodeAudioData, Int16Array_over, createBuffer, frames_allocated, cbind.
  destruct (Nat.even (length data)); [|discriminate].
  destruct (numChannels =? 0) eqn:Hc; [discriminate|].
  destruct (length (int16_view data) / numChannels =? 0) eqn:Hf; [discriminate|].
  destruct (sampleRate <=? 0)%Z; [discriminate|].
  cbn [orb]. intros [= <-]. cbn.
  apply Nat.eqb_neq in Hc, Hf. repeat split; assumption.
Qed.

Lemma fold_insert_seq {A} (f : nat -> A) (n : nat) (l : list A) :
  n <= length l ->
  fold_left (fun cd i => <[ i := f i ]> cd) (seq 0 n) l
  = map f (seq 0 n) ++ drop n l.
Proof.
  induction n as [|n IH]; intros Hn.
  - reflexivity.
  - rewrite seq_S, fold_left_app, map_app. cbn [fold_left map Nat.add].
    rewrite IH by lia.
    destruct (lookup_lt_is_Some_2 l n) as [x Hx]; [lia|].
    rewrite (drop_S l x n Hx).
    rewrite insert_app_r_alt by (rewrite length_map, length_seq; lia).
    rewrite length_map, length_seq, Nat.sub_diag. cbn.
    rewrite <- app_assoc. reflexivity.
Qed.

Lemma mono_samples (dataInt16 : list Z) :
  map (fun i => sample_at dataInt16 (i * 1 + 0)) (seq 0 (length dataInt16))
  = map (fun x => Finite (x # 32768)) dataInt16.
Proof.
  apply list_eq. intros i.
  change (@map ?A ?B ?f ?l) with (@fmap list _ A B f l).
  rewrite !list_lookup_fmap.
  destruct (decide (i < length dataInt16)) as [Hi|Hi].
  - rewrite lookup_seq_lt by exact Hi. cbn [fmap option_fmap option_map Nat.add].
    rewrite Nat.mul_1_r, Nat.add_0_r. unfold sample_at.
    destruct (lookup_lt_is_Some_2 dataInt16 i Hi) as [x ->]. reflexivity.
  - rewrite lookup_seq_ge by lia. rewrite (lookup_ge_None_2 dataInt16 i) by lia.
    reflexivity.
Qed.

Lemma decodeAudioData_mono (data : Uint8Array) (sampleRate : Z)
    (buffer : AudioBuffer) :
  decodeAudioData data sampleRate 1 = Normal buffer ->
  ab_channels buffer = [map (fun x => Finite (x # 32768)) (int16_view data)].
Proof.
  intros H. apply decodeAudioData_inv in H as (_ & _ & _ & _ & _ & ->).
  unfold frames_visited. rewrite Nat.add_sub, Nat.div_1_r.
  cbn [replicate imap]. unfold fill_channel.
  rewrite fold_insert_seq by (rewrite length_replicate; lia).
  rewrite drop_ge by (rewrite length_replicate; lia).
  rewrite app_nil_r, mono_samples. reflexivity.
Qed.

Lemma decodeAudioData_in_range (data : Uint8Array) (sampleRate : Z)
    (numChannels : nat) (buffer : AudioBuffer) :
  decodeAudioData data sampleRate numChannels = Normal buffer ->
  Forall (Forall unit_sample) (ab_channels buffer).
Proof.
  intros H. apply decodeAudioData_inv in H as (_ & _ & _ & _ & _ & ->).
  apply Forall_lookup. intros channel samples Hlook.
  rewrite list_lookup_imap in Hlook.
  destruct (replicate numChannels _ !! channel) as [zeros|] eqn:Hz;
    [|discriminate].
  apply lookup_replicate in Hz as [-> Hch]. injection Hlook as <-.
  apply fill_channel_in_range.
  - apply int16_view_range.
  - exact Hch.
  - apply length_replicate.
  - apply Forall_replicate. unfold unit_sample, Qle. simpl. lia.
Qed.

(** C2. Whatever bytes [decodeAudioData] is given, every sample of the
    buffer it returns is a number in [-1, 1]; with one channel the sample of
    frame [i] is [dataInt16[i] / 32768], [dataInt16] being the bytes read as
    16-bit signed integers; and when the provider sends audio,
    [generateSpeech] is that decoder at 24000 Hz and one channel, so that
    the buffer it returns is mono at 24 kHz. *)
Theorem pcm_samples_in_unit_interval :
  (forall data sampleRate numChannels buffer,
      decodeAudioData data sampleRate numChannels = Normal buffer ->
      Forall (Forall unit_sample) (ab_channels buffer))
  /\ (forall data sampleRate buffer,
      decodeAudioData data sampleRate 1 = Normal buffer ->
      Forall is_int16 (int16_view data)
      /\ ab_channels buffer
         = [map (fun x => Finite (x # 32768)) (int16_view data)])
  /\ (forall atob client text response base64,
      client (speech_request text) = Normal response ->
      resp_inlineData response = Some base64 ->
      base64 <> EmptyString ->
      outcome (generateSpeech atob (Some client) text)
      = cbind (decode atob base64) (fun bytes => decodeAudioData bytes 24000 1))
  /\ (forall atob client text buffer,
      outcome (generateSpeech atob (Some client) text) = Normal buffer ->
      ab_sampleRate buffer = 24000%Z /\ numberOfChannels buffer = 1).
Proof.
  split; [exact decodeAudioData_in_range|].
  split.
  { intros data sampleRate buffer H. split;
      [apply int16_view_range | exact (decodeAudioData_mono _ _ _ H)]. }
  split.
  { intros atob client text response base64 Hresp Hdata Hne.
    unfold generateSpeech, bind, send, outcome. rewrite Hresp, Hdata.
    destruct base64; [congruence|]. unfold lift.
    destruct (cbind _ _); reflexivity. }
  intros atob client text buffer H.
  unfold generateSpeech, bind, send, lift, throw, outcome, cbind in H.
  repeat (case_match; simplify_eq/=).
  match goal with
  | Hd : decodeAudioData _ _ _ = Normal _ |- _ =>
      pose proof (decodeAudioData_mono _ _ _ Hd) as Hch;
      apply decodeAudioData_inv in Hd as (_ & _ & _ & Hsr & _ & _)
  end.
  unfold numberOfChannels. rewrite Hch. split; [exact Hsr|reflexivity].
Qed.


(** C2 at six bytes of audio: the samples 0, 32767/32768 and -1. *)
Lemma pcm_samples_in_unit_interval_witness :
  Forall (Forall unit_sample) (ab_channels Examples.pcm_buffer)
  /\ ab_channels Examples.pcm_buffer
     = [map (fun x => Finite (x # 32768)) (int16_view Examples.pcm)]
  /\ outcome (generateSpeech Examples.atob
                (Some (Examples.speaking Examples.pcm_base64)) "Hello.")
     = Normal Examples.pcm_buffer
  /\ ab_sampleRate Examples.pcm_buffer = 24000%Z
  /\ numberOfChannels Examples.pcm_buffer = 1.
Proof.
  destruct pcm_samples_in_unit_interval as (Hrange & Hmono & Hcall & Hshape).
  split; [|split; [|split]].
  - apply (Hrange Examples.pcm 24000%Z 1). reflexivity.
  - apply (Hmono Examples.pcm 24000%Z). reflexivity.
  - etransitivity.
    + apply (Hcall Examples.atob (Examples.speaking Examples.pcm_base64)
               "Hello."%string _ Examples.pcm_base64 eq_refl eq_refl).
      discriminate.
    + reflexivity.
  - apply (Hshape Examples.atob (Examples.speaking Examples.pcm_base64)
             "Hello."%string). reflexivity.
Defined.

Lemma decode_length (atob : string -> Completion string)
    (base64 binaryString : string) :
  atob base64 = Normal binaryString ->
  exists bytes,
    decode atob base64 = Normal bytes
    /\ length bytes = String.length binaryString
    /\ Forall (fun b => 0 <= b < 256)%Z bytes.
Proof.
  intros H. unfold decode, cbind. rewrite H. eexists. split; [reflexivity|].
  split.
  - rewrite length_map. clear H.
    induction binaryString as [|c s IH]; simpl; [reflexivity|now rewrite IH].
  - apply List.Forall_forall. intros b Hb. apply in_map_iff in Hb as (c & <- & _).
    unfold to_uint8. apply Z.mod_pos_bound. reflexivity.
Qed.

(** C10, as the code has it. [decode] gives one byte per character of the
    string [atob] returns. On a byte array of odd length [decodeAudioData]
    throws the [RangeError] of the [Int16Array] constructor. On one of even
    length other than zero, asked for one channel at 24000 Hz, it returns a
    buffer whose frame count is half the byte length. *)
Theorem pcm_decode_total_on_even_nonempty :
  (forall atob base64 binaryString,
      atob base64 = Normal binaryString ->
      exists bytes,
        decode atob base64 = Normal bytes
        /\ length bytes = String.length binaryString)
  /\ (forall data sampleRate numChannels,
      Nat.Odd (length data) ->
      decodeAudioData data sampleRate numChannels = Throw RangeError)
  /\ (forall data,
      Nat.Even (length data) -> length data <> 0 ->
      exists buffer,
        decodeAudioData data 24000 1 = Normal buffer
        /\ ab_length buffer = length data / 2
        /\ Forall (fun samples => length samples = length data / 2)
             (ab_channels buffer)).
Proof.
  split.
  { intros atob base64 s H.
    destruct (decode_length atob base64 s H) as (bytes & ? & ? & _). eauto. }
  split.
  { intros data sampleRate numChannels Hodd.
    unfold decodeAudioData, Int16Array_over.
    apply Nat.odd_spec in Hodd. rewrite <- Nat.negb_odd, Hodd. reflexivity. }
  intros data Heven Hne.
  destruct (decodeAudioData data 24000 1) as [buffer|e] eqn:Hdec.
  - exists buffer. split; [reflexivity|].
    pose proof (decodeAudioData_mono _ _ _ Hdec) as Hch.
    apply decodeAudioData_inv in Hdec as (_ & _ & _ & _ & Hlen & _).
    rewrite Nat.div_1_r, int16_view_length in Hlen. split; [exact Hlen|].
    rewrite Hch. repeat constructor.
    rewrite length_map. apply int16_view_length.
  - exfalso. revert Hdec.
    unfold decodeAudioData, Int16Array_over, createBuffer, frames_allocated, cbind.
    rewrite (proj2 (Nat.even_spec _) Heven).
    rewrite Nat.div_1_r, int16_view_length.
    destruct (length data / 2 =? 0) eqn:Hz; [|discriminate].
    apply Nat.eqb_eq in Hz. destruct Heven as [k Hk].
    rewrite Hk, Nat.mul_comm, Nat.div_mul in Hz by lia. lia.
Qed.

(** C10 at six bytes (three frames) and at three bytes (rejected). *)
Lemma pcm_decode_total_on_even_nonempty_witness :
  (exists bytes, decode Examples.atob Examples.pcm_base64 = Normal bytes
                 /\ length bytes = 6)
  /\ decodeAudioData [0; 0; 255]%Z 24000 1 = Throw RangeError
  /\ (exists buffer, decodeAudioData Examples.pcm 24000 1 = Normal buffer
                     /\ ab_length buffer = 3).
Proof.
  destruct pcm_decode_total_on_even_nonempty as (Hdecode & Hodd & Heven).
  split; [|split].
  - destruct (Hdecode Examples.atob Examples.pcm_base64 _ eq_refl)
      as (bytes & Hb & Hl). exists bytes. split; [exact Hb|exact Hl].
  - apply Hodd. exists 1. reflexivity.
  - destruct (Heven Examples.pcm) as (buffer & Hb & Hl & _).
    + exists 3. reflexivity.
    + discriminate.
    + exists buffer. split; [exact Hb|exact Hl].
Defined.

(** C10 as stated fails at the empty byte array: its length is even, the
    [Int16Array] is built, and [createBuffer] rejects a buffer of no
    frames. *)
Lemma empty_pcm_is_rejected :
  Nat.Even (length ([] : Uint8Array))
  /\ decodeAudioData [] 24000 1 = Throw (DOMException "NotSupportedError").
Proof. split; [exists 0; reflexivity | reflexivity]. Qed.

(** ** The audio cache of ResultDisplay *)

Section AudioCache.
Import ResultDisplay.

(** The effect empties the cache, makes one call for the sentence shown and
    stores its promise. *)
Lemma prefetch_effect_spec (st : State) :
  let st' := prefetch_effect st in
  audioCache st' = None
  /\ audioPromise st' = Some (length (calls st))
  /\ currentSentence st' = englishSentence st
  /\ englishSentence st' = englishSentence st
  /\ calls st' = calls st ++ [{| sc_text := englishSentence st;
                                 sc_state := Pending |}]
  /\ waiters st' = waiters st
                   ++ [(length (calls st), PrefetchAwait (englishSentence st))].
Proof. repeat split. Qed.

(** The prefetch writes the cache only for the sentence that is current. *)
Lemma prefetch_write_guarded (p : nat) (sentence : string) (st : State) :
  let st' := resume_waiter p true (PrefetchAwait sentence) st in
  (currentSentence st = sentence -> audioCache st' = Some (buffer_of p st))
  /\ (currentSentence st <> sentence -> st' = st).
Proof.
  cbv zeta. unfold resume_waiter.
  destruct (String.eqb_spec (currentSentence st) sentence);
    split; intros; try reflexivity; congruence.
Qed.

(** A continuation resumed by a fulfilled promise makes no call and leaves
    the stored promise alone. *)
Lemma resume_waiter_fulfilled (p : nat) (w : Waiter) (st : State) :
  let st' := resume_waiter p true w st in
  calls st' = calls st
  /\ audioPromise st' = audioPromise st
  /\ englishSentence st' = englishSentence st.
Proof.
  destruct w; cbn; try destruct (String.eqb _ _); repeat split.
Qed.

Lemma resume_all_fulfilled (p : nat) (ws : list (nat * Waiter)) (st : State) :
  let st' := fold_left (fun s '(_, w) => resume_waiter p true w s) ws st in
  calls st' = calls st
  /\ audioPromise st' = audioPromise st
  /\ englishSentence st' = englishSentence st.
Proof.
  revert st. induction ws as [|[q w] ws IH]; intros st; cbn.
  - repeat split.
  - destruct (IH (resume_waiter p true w st)) as (-> & -> & ->).
    apply resume_waiter_fulfilled.
Qed.

Lemma playAudio_body_undisturbed (sentence : string) (st : State) :
  undisturbed st ->
  let st' := playAudio_body sentence st in
  calls st' = calls st
  /\ audioPromise st' = audioPromise st
  /\ englishSentence st' = englishSentence st.
Proof.
  intros [[p Hp] Hcalls]. unfold playAudio_body.
  destruct (audioCache st); [repeat split|].
  cbn [audioPromise setIsAudioLoading]. rewrite Hp.
  unfold await_promise. cbn [calls setIsAudioLoading].
  destruct (calls st !! p) as [[text []]|] eqn:Hcall; cbn;
    try (now repeat split).
  rewrite Forall_lookup in Hcalls. specialize (Hcalls _ _ Hcall).
  exfalso. apply Hcalls. reflexivity.
Qed.

(** An event other than a rejection keeps the state undisturbed, and only
    the effect makes a call. *)
Lemma step_undisturbed (st : State) (e : Event) :
  undisturbed st -> is_failure e = false ->
  undisturbed (step st e)
  /\ length (calls (step st e))
     = length (calls st) + activations (englishSentence st) [e]
  /\ englishSentence (step st e)
     = match e with Render sentence => sentence | _ => englishSentence st end.
Proof.
  intros Hst Hfail. pose proof Hst as [[p Hp] Hcalls].
  destruct e as [sentence|suspended|i ok|q ok|]; cbn [step activations].
  - destruct (String.eqb_spec sentence (englishSentence st)) as [->|Hne].
    + rewrite Nat.add_0_r. auto.
    + cbn. rewrite length_app. cbn. split; [|auto]. split; [eauto|].
      apply Forall_app. split; [exact Hcalls|].
      repeat constructor. discriminate.
  - rewrite Nat.add_0_r. destruct (isAudioLoading st); [auto|].
    unfold playAudio. destruct (isAudioPlaying st); [auto|].
    destruct suspended; [cbn; auto|].
    destruct (playAudio_body_undisturbed (englishSentence st) st Hst)
      as (Hc & Hp' & He).
    unfold undisturbed. rewrite Hc, Hp', He. auto.
  - rewrite Nat.add_0_r. destruct (resuming st !! i) as [sentence|]; [|auto].
    destruct ok; [|cbn; auto].
    set (st' := set_resuming _ st).
    assert (undisturbed st') as Hst' by exact Hst.
    destruct (playAudio_body_undisturbed sentence st' Hst') as (Hc & Hp' & He).
    unfold undisturbed. rewrite Hc, Hp', He. auto.
  - rewrite Nat.add_0_r. destruct ok; [|discriminate]. unfold settle.
    destruct (calls st !! q) as [[text []]|] eqn:Hcall; auto.
    match goal with
    | |- context [fold_left ?f ?ws ?s0] =>
        destruct (resume_all_fulfilled q ws s0) as (Hc & Hp' & He)
    end.
    unfold undisturbed. rewrite Hc, Hp', He. cbn.
    rewrite length_insert. split; [|auto]. split; [eauto|].
    apply Forall_insert; [exact Hcalls|]. discriminate.
  - rewrite Nat.add_0_r. auto.
Qed.

Lemma run_undisturbed (trace : list Event) (st : State) :
  undisturbed st -> forallb (fun e => negb (is_failure e)) trace = true ->
  length (calls (run st trace))
  = length (calls st) + activations (englishSentence st) trace.
Proof.
  revert st. induction trace as [|e trace IH]; intros st Hst Hok.
  - cbn. lia.
  - cbn [forallb] in Hok. apply andb_prop in Hok as [He Hok].
    apply negb_true_iff in He.
    destruct (step_undisturbed st e Hst He) as (Hst' & Hlen & Hsentence).
    cbn [run fold_left]. fold (run (step st e) trace).
    rewrite (IH _ Hst' Hok), Hlen, Hsentence.
    destruct e; cbn [activations]; try lia.
    destruct (String.eqb sentence (englishSentence st)) eqn:E; [|lia].
    apply String.eqb_eq in E. subst. lia.
Qed.

Lemma mount_undisturbed (sentence : string) : undisturbed (mount sentence).
Proof. split; [eexists; reflexivity|]. repeat constructor. discriminate. Qed.

(** C4, at the input where it fails. The play button is pressed while the
    prefetch for the first sentence is pending, the result changes, and the
    first promise is fulfilled: [playAudio] stores the buffer of the first
    sentence in the cache although the second sentence is the current one,
    and the next press plays it. *)
Theorem stale_buffer_cached :
  let st := run (mount "I go.")
              [Click false; Render "She goes."; Settle 0 true] in
  currentSentence st = "She goes."%string
  /\ englishSentence st = "She goes."%string
  /\ audioCache st = Some {| spoken := "I go."; from_call := 0 |}
  /\ started (run st [Ended; Click false])
     = [{| spoken := "I go."; from_call := 0 |};
        {| spoken := "I go."; from_call := 0 |}].
Proof. vm_compute. repeat split. Qed.


(** C8, as the code has it. When [playAudio] runs with an empty cache and a
    stored promise that is pending, it makes no call of [generateSpeech] and
    awaits the stored promise; and as long as no promise is rejected, the
    calls of [generateSpeech] are those of the effect, one for each time a
    sentence becomes the current one. *)
Theorem playAudio_shares_pending_prefetch :
  (forall st p text sentence,
      audioCache st = None -> audioPromise st = Some p ->
      calls st !! p = Some {| sc_text := text; sc_state := Pending |} ->
      calls (playAudio_body sentence st) = calls st
      /\ waiters (playAudio_body sentence st)
         = waiters st ++ [(p, PlayAwaitStored sentence)]
      /\ forall suspended, calls (step st (Click suspended)) = calls st)
  /\ (forall sentence trace,
      forallb (fun e => negb (is_failure e)) trace = true ->
      length (calls (run (mount sentence) trace))
      = S (activations sentence trace)).
Proof.
  split.
  - intros st p text sentence Hcache Hp Hcall.
    assert (Hbody : forall s, playAudio_body s st
                    = await p (PlayAwaitStored s) (setIsAudioLoading true st)).
    { intros s. unfold playAudio_body. rewrite Hcache.
      cbn [audioPromise setIsAudioLoading]. rewrite Hp.
      unfold await_promise. cbn [calls setIsAudioLoading].
      rewrite Hcall. reflexivity. }
    rewrite Hbody. repeat split.
    intros suspended. cbn [step]. destruct (isAudioLoading st); [reflexivity|].
    unfold playAudio. destruct (isAudioPlaying st); [reflexivity|].
    destruct suspended; [reflexivity|]. rewrite Hbody. reflexivity.
  - intros sentence trace Hok.
    rewrite (run_undisturbed trace (mount sentence)
               (mount_undisturbed sentence) Hok).
    reflexivity.
Qed.

(** C8 right after the first render, and along a run without failures in
    which the sentence changes once: two calls in all. *)
Lemma playAudio_shares_pending_prefetch_witness :
  calls (playAudio_body "I go." (mount "I go.")) = calls (mount "I go.")
  /\ waiters (playAudio_body "I go." (mount "I go."))
     = [(0, PrefetchAwait "I go."); (0, PlayAwaitStored "I go.")]
  /\ length (calls (run (mount "I go.")
                      [Click false; Settle 0 true; Ended; Click false;
                       Render "She goes."; Click true; Resumed 0 true]))
     = 2.
Proof.
  destruct playAudio_shares_pending_prefetch as (Hshare & Hcount).
  destruct (Hshare (mount "I go.") 0 "I go."%string "I go."%string
              eq_refl eq_refl eq_refl) as (Hcalls & Hwaiters & _).
  split; [exact Hcalls|]. split; [exact Hwaiters|].
  apply (Hcount "I go."%string
           [Click false; Settle 0 true; Ended; Click false;
            Render "She goes."; Click true; Resumed 0 true]).
  reflexivity.
Defined.

(** C8 as stated fails. When the result changes and changes back while the
    first prefetch is pending, two calls for the current sentence are in
    flight although no promise has been rejected. And when a [playAudio] of
    an earlier sentence fails after the result changed, its [catch] clears
    the stored promise of the current sentence, whose prefetch is still
    pending, and the next press starts a second call for it. *)
Lemma two_fetches_for_current_sentence :
  (let st := run (mount "I go.") [Render "She goes."; Render "I go."] in
   currentSentence st = "I go."%string
   /\ in_flight (currentSentence st) st
      = [{| sc_text := "I go."; sc_state := Pending |};
         {| sc_text := "I go."; sc_state := Pending |}]
   /\ audioPromise st = Some 2
   /\ Forall not_rejected (calls st))
  /\ (let st := run (mount "I go.")
                  [Click false; Render "She goes."; Settle 0 false;
                   Settle 2 false; Click false] in
      currentSentence st = "She goes."%string
      /\ calls st = [{| sc_text := "I go."; sc_state := Rejected |};
                     {| sc_text := "She goes."; sc_state := Pending |};
                     {| sc_text := "I go."; sc_state := Rejected |};
                     {| sc_text := "She goes."; sc_state := Pending |}]
      /\ waiters st = [(1, PrefetchAwait "She goes.");
                       (3, PlayAwaitFresh "She goes.")]).
Proof.
  vm_compute. repeat split. repeat constructor; discriminate.
Qed.

End AudioCache.

(** * Further properties of the service *)

(** X1. With a credential, [analyzeSentence], [lookupWord] and
    [evaluateWriting] send one request and then either return, or log the
    exception once and throw their own fixed message: no exception of the
    provider, of [JSON.parse] or of a property access on the parsed value
    leaves them. *)
Theorem json_operations_funnel_errors
    (JSON_parse : string -> Completion Value) (client : Client)
    (sentence word text : string) (mode : WritingMode) (level : ModelLevel) :
  let cfg := getModelConfig level in
  ((exists v, analyzeSentence JSON_parse (Some client) sentence level
              = ([Net (analyze_request cfg sentence)], Normal v))
   \/ (exists e, analyzeSentence JSON_parse (Some client) sentence level
                 = ([Net (analyze_request cfg sentence);
                     ConsoleError "Gemini API Error:" e],
                    Throw (Error analyze_failed))))
  /\ ((exists v, lookupWord JSON_parse (Some client) word level
                 = ([Net (lookup_request cfg word)], Normal v))
      \/ (exists e, lookupWord JSON_parse (Some client) word level
                    = ([Net (lookup_request cfg word);
                        ConsoleError "Dictionary API Error" e],
                       Throw (Error lookup_failed))))
  /\ ((exists r, evaluateWriting JSON_parse (Some client) text mode level
                 = ([Net (writing_request cfg mode text)], Normal r))
      \/ (exists e, evaluateWriting JSON_parse (Some client) text mode level
                    = ([Net (writing_request cfg mode text);
                        ConsoleError "Writing Evaluation API Error" e],
                       Throw (Error writing_failed)))).
Proof.
  intros cfg. subst cfg.
  repeat split; run_service; eauto.
Qed.

(** X2. [lookupWord] returns exactly when the provider answered with a text
    that is not empty and that [JSON.parse] accepts, and what it returns is
    the parsed value, whatever its shape. *)
Theorem lookupWord_returns_parsed
    (JSON_parse : string -> Completion Value) (client : Client)
    (word : string) (level : ModelLevel) (v : Value) :
  outcome (lookupWord JSON_parse (Some client) word level) = Normal v
  <-> exists response jsonText,
        client (lookup_request (getModelConfig level) word) = Normal response
        /\ resp_text response = Some jsonText
        /\ jsonText <> EmptyString
        /\ JSON_parse jsonText = Normal v.
Proof.
  split.
  - intros H. run_service. do 2 eexists. repeat split; eauto; discriminate.
  - intros (response & jsonText & Hc & Ht & Hne & Hp).
    unfold lookupWord, try_catch, bind, send, lift, outcome.
    rewrite Hc, Ht. destruct jsonText; [congruence|]. rewrite Hp. reflexivity.
Qed.

(** X2 at a response that is the JSON text of an empty object. *)
Lemma lookupWord_returns_parsed_witness :
  outcome (lookupWord Examples.parse
             (Some (Examples.answering (Some "{}"%string))) "take up" quick)
  = Normal (Obj []).
Proof.
  apply (lookupWord_returns_parsed Examples.parse
           (Examples.answering (Some "{}"%string)) "take up" quick (Obj [])).
  exists (Examples.reply (Some "{}"%string)), "{}"%string.
  repeat split. discriminate.
Defined.

(** X3. [evaluateWriting] returns exactly when the provider answered with a
    non-empty text that parses to a value other than [null]; the result then
    has the caller's mode and the [generalFeedback] and [segments] of the
    parsed value as they are, [undefined] when the value lacks them. *)
Theorem evaluateWriting_returns_unchecked
    (JSON_parse : string -> Completion Value) (client : Client)
    (text : string) (mode : WritingMode) (level : ModelLevel)
    (r : EvaluatedWriting) :
  outcome (evaluateWriting JSON_parse (Some client) text mode level) = Normal r
  <-> exists response jsonText parsed feedback segments,
        client (writing_request (getModelConfig level) mode text)
        = Normal response
        /\ resp_text response = Some jsonText
        /\ jsonText <> EmptyString
        /\ JSON_parse jsonText = Normal parsed
        /\ get_prop parsed "generalFeedback" = Normal feedback
        /\ get_prop parsed "segments" = Normal segments
        /\ r = {| ew_mode := mode; ew_generalFeedback := feedback;
                  ew_segments := segments |}.
Proof.
  split.
  - intros H. run_service. do 5 eexists. repeat split; eauto; discriminate.
  - intros (response & jsonText & parsed & fb & segs
            & Hc & Ht & Hne & Hp & Hf & Hs & ->).
    unfold evaluateWriting, try_catch, bind, send, lift, ret, outcome.
    rewrite Hc, Ht. destruct jsonText; [congruence|].
    rewrite Hp, Hf, Hs. reflexivity.
Qed.

(** X3 at the response [{}]: a result without feedback and segments. *)
Lemma evaluateWriting_returns_unchecked_witness :
  outcome (evaluateWriting Examples.parse
             (Some (Examples.answering (Some "{}"%string))) "I goes." ielts_6_5
             mini)
  = Normal {| ew_mode := ielts_6_5; ew_generalFeedback := Undefined;
              ew_segments := Undefined |}.
Proof.
  apply (evaluateWriting_returns_unchecked Examples.parse
           (Examples.answering (Some "{}"%string)) "I goes." ielts_6_5 mini).
  exists (Examples.reply (Some "{}"%string)), "{}"%string, (Obj []),
    Undefined, Undefined.
  repeat split. discriminate.
Defined.

Lemma assoc_set_prop_other (props : list (string * Value)) (k k' : string)
    (v : Value) :
  k <> k' -> assoc k (set_prop props k' v) = assoc k props.
Proof.
  intros Hne. induction props as [|[k0 v0] props IH]; cbn.
  - destruct (String.eqb_spec k k'); [contradiction|reflexivity].
  - destruct (String.eqb_spec k' k0) as [->|Hk0]; cbn.
    + destruct (String.eqb_spec k k0); [contradiction|reflexivity].
    + destruct (String.eqb k k0); [reflexivity|exact IH].
Qed.

Lemma set_prop_keys (props : list (string * Value)) (k : string) (v : Value) :
  map fst (set_prop props k v)
  = if existsb (String.eqb k) (map fst props) then map fst props
    else map fst props ++ [k].
Proof.
  induction props as [|[k0 v0] props IH]; cbn; [reflexivity|].
  destruct (String.eqb k k0); cbn; [reflexivity|].
  rewrite IH. destruct (existsb _ _); reflexivity.
Qed.

(** X4. When the parsed response is an object, the object [analyzeSentence]
    returns has the same properties in the same order, with the same values,
    except [englishSentence]: that one is overwritten in place when the
    response has it and added last when it has not. *)
Theorem analysis_keeps_other_properties
    (JSON_parse : string -> Completion Value) (client : Client)
    (sentence : string) (level : ModelLevel) (response : Response)
    (jsonText : string) (props : list (string * Value))
    (Hreply : client (analyze_request (getModelConfig level) sentence)
              = Normal response)
    (Htext : resp_text response = Some jsonText)
    (Hnonempty : jsonText <> EmptyString)
    (Hparse : JSON_parse jsonText = Normal (Obj props)) :
  exists props',
    outcome (analyzeSentence JSON_parse (Some client) sentence level)
    = Normal (Obj props')
    /\ (forall k, k <> "englishSentence"%string -> assoc k props' = assoc k props)
    /\ (exists v, assoc "englishSentence" props' = Some v)
    /\ map fst props'
       = if existsb (String.eqb "englishSentence") (map fst props)
         then map fst props
         else map fst props ++ ["englishSentence"%string].
Proof.
  unfold analyzeSentence, try_catch, bind, send, lift, ret, outcome.
  rewrite Hreply, Htext. destruct jsonText; [congruence|]. rewrite Hparse.
  cbn [get_prop spread].
  destruct (default Undefined (assoc "correction" props))
    as [| |[]|[| |q]|s|l|c]; cbn;
    try destruct (Qeq_bool q 0); try destruct s; cbn.
  all: eexists; (split; [reflexivity|]).
  all: split; [intros k Hk; now apply assoc_set_prop_other|].
  all: split; [eexists; apply assoc_set_prop|apply set_prop_keys].
Qed.

(** X4 at a response that corrects [i go.]: [correction] is kept and
    [englishSentence] is added. *)
Lemma analysis_keeps_other_properties_witness :
  exists props',
    outcome (analyzeSentence Examples.parse
               (Some (Examples.answering (Some Examples.corrected_json)))
               "i go." deep)
    = Normal (Obj props')
    /\ assoc "correction" props'
       = Some (Obj [("corrected"%string, Str "I go.")])
    /\ map fst props' = ["correction"%string; "englishSentence"%string].
Proof.
  destruct (analysis_keeps_other_properties Examples.parse
              (Examples.answering (Some Examples.corrected_json))
              "i go." deep (Examples.reply (Some Examples.corrected_json))
              Examples.corrected_json
              [("correction"%string, Obj [("corrected"%string, Str "I go.")])]
              eq_refl eq_refl)
    as (props' & Hout & Hkeep & _ & Hkeys).
  - discriminate.
  - reflexivity.
  - exists props'. split; [exact Hout|]. split.
    + rewrite Hkeep by discriminate. reflexivity.
    + exact Hkeys.
Defined.

(** X5. [generateSpeech] neither logs nor rewrites a failure: an exception
    of the provider or of [atob] leaves it as it is, after the one request;
    a response without inline audio gives its own [Error], with a warning
    on the console exactly when the response has text instead. *)
Theorem generateSpeech_failures
    (atob : string -> Completion string) (client : Client) (text : string) :
  (forall e,
      client (speech_request text) = Throw e ->
      generateSpeech atob (Some client) text
      = ([Net (speech_request text)], Throw e))
  /\ (forall response,
      client (speech_request text) = Normal response ->
      resp_inlineData response = None
      \/ resp_inlineData response = Some EmptyString ->
      generateSpeech atob (Some client) text
      = (Net (speech_request text)
           :: (if truthy_string (default EmptyString (resp_partText response))
               then [ConsoleWarn "Gemini TTS returned text instead of audio. Text:"]
               else []),
         Throw (Error "No audio data received from Gemini")))
  /\ (forall response base64 e,
      client (speech_request text) = Normal response ->
      resp_inlineData response = Some base64 ->
      base64 <> EmptyString ->
      atob base64 = Throw e ->
      generateSpeech atob (Some client) text
      = ([Net (speech_request text)], Throw e)).
Proof.
  split; [|split].
  - intros e H. unfold generateSpeech, bind, send. rewrite H. reflexivity.
  - intros response H Hdata. unfold generateSpeech, bind, send. rewrite H.
    destruct Hdata as [-> | ->];
      destruct (truthy_string _); reflexivity.
  - intros response base64 e H Hdata Hne Hatob.
    unfold generateSpeech, bind, send, lift. rewrite H, Hdata.
    destruct base64; [congruence|].
    unfold decode, cbind. rewrite Hatob. reflexivity.
Qed.

(** X5 with a provider that is offline, one that answers with text only,
    and one whose audio is not base64. *)
Lemma generateSpeech_failures_witness :
  generateSpeech Examples.atob (Some Examples.offline) "Hello."
  = ([Net (speech_request "Hello.")], Throw (HostFailure 0))
  /\ generateSpeech Examples.atob
       (Some (fun _ => Normal {| resp_text := Some "Hi"%string;
                                 resp_inlineData := None;
                                 resp_partText := Some "Hi"%string |}))
       "Hello."
     = ([Net (speech_request "Hello.");
         ConsoleWarn "Gemini TTS returned text instead of audio. Text:"],
        Throw (Error "No audio data received from Gemini"))
  /\ generateSpeech Examples.atob (Some (Examples.speaking "????")) "Hello."
     = ([Net (speech_request "Hello.")],
        Throw (DOMException "InvalidCharacterError")).
Proof.
  split; [|split].
  - apply generateSpeech_failures. reflexivity.
  - apply (proj1 (proj2 (generateSpeech_failures Examples.atob _ "Hello."))
             {| resp_text := Some "Hi"%string; resp_inlineData := None;
                resp_partText := Some "Hi"%string |}
             eq_refl (or_introl eq_refl)).
  - apply (proj2 (proj2 (generateSpeech_failures Examples.atob _ "Hello."))
             {| resp_text := None; resp_inlineData := Some "????"%string;
                resp_partText := None |}
             "????"%string (DOMException "InvalidCharacterError")
             eq_refl eq_refl); [discriminate | reflexivity].
Defined.

Lemma fold_insert_beyond {A} (f : nat -> A) (indices : list nat) (l : list A) :
  Forall (fun i => length l <= i) indices ->
  fold_left (fun cd i => <[ i := f i ]> cd) indices l = l.
Proof.
  induction indices as [|i indices IH]; intros H; [reflexivity|].
  apply Forall_cons in H as [Hi H]. cbn [fold_left].
  rewrite list_insert_ge by exact Hi. exact (IH H).
Qed.

Lemma fold_insert_seq_all {A} (f : nat -> A) (n : nat) (l : list A) :
  length l <= n ->
  fold_left (fun cd i => <[ i := f i ]> cd) (seq 0 n) l
  = map f (seq 0 (length l)).
Proof.
  intros Hn.
  replace n with (length l + (n - length l)) by lia.
  rewrite seq_app, fold_left_app, fold_insert_seq by lia.
  rewrite drop_all, app_nil_r. apply fold_insert_beyond.
  rewrite length_map, length_seq. apply Forall_forall. intros i Hi.
  apply elem_of_seq in Hi. lia.
Qed.

Lemma imap_replicate {A B} (f : nat -> A -> B) (n : nat) (x : A) :
  imap f (replicate n x) = map (fun i => f i x) (seq 0 n).
Proof.
  apply list_eq. intros i.
  change (@map ?X ?Y ?g ?l) with (@fmap list _ X Y g l).
  rewrite list_lookup_imap, list_lookup_fmap.
  destruct (decide (i < n)) as [Hi|Hi].
  - rewrite lookup_replicate_2, lookup_seq_lt by exact Hi. reflexivity.
  - rewrite (proj1 (lookup_replicate_None n x i)), lookup_seq_ge by lia.
    reflexivity.
Qed.

Lemma frames_visited_covers (len numChannels : nat) :
  frames_allocated len numChannels <= frames_visited len numChannels.
Proof.
  unfold frames_allocated, frames_visited.
  destruct numChannels as [|n]; [reflexivity|].
  apply Nat.Div0.div_le_mono. lia.
Qed.

Lemma decodeAudioData_returns (data : Uint8Array) (sampleRate : Z)
    (numChannels : nat) :
  Nat.Even (length data) -> numChannels <> 0 ->
  length (int16_view data) / numChannels <> 0 -> (0 < sampleRate)%Z ->
  decodeAudioData data sampleRate numChannels
  = Normal
      {| ab_sampleRate := sampleRate;
         ab_length := length (int16_view data) / numChannels;
         ab_channels :=
           map (fun channel =>
                  map (fun i => sample_at (int16_view data)
                                  (i * numChannels + channel))
                      (seq 0 (length (int16_view data) / numChannels)))
               (seq 0 numChannels) |}.
Proof.
  intros Heven Hnc Hfr Hsr.
  unfold decodeAudioData, Int16Array_over, createBuffer, cbind.
  rewrite (proj2 (Nat.even_spec _) Heven). unfold frames_allocated at 1.
  rewrite (proj2 (Nat.eqb_neq _ _) Hnc), (proj2 (Nat.eqb_neq _ _) Hfr).
  rewrite (proj2 (Z.leb_gt _ _) Hsr). cbn [orb ab_sampleRate ab_length ab_channels].
  f_equal. f_equal. rewrite imap_replicate.
  apply map_ext. intros channel. unfold fill_channel.
  rewrite fold_insert_seq_all.
  - rewrite length_replicate. reflexivity.
  - rewrite length_replicate. apply frames_visited_covers.
Qed.

(** X7. [decodeAudioData] reads the samples as interleaved frames. It
    returns only when the byte length is even, a channel is asked for, the
    samples make at least one frame and the sample rate is positive; it
    does return then when the channels are at most 32 and the rate is from
    8000 Hz to 96000 Hz, the ranges every implementation of [createBuffer]
    supports. The buffer it returns has [numChannels] channels of
    [floor(samples / numChannels)] frames, the sample of channel [c] in
    frame [i] is [dataInt16[i * numChannels + c] / 32768], and the samples
    of an incomplete last frame are left out. *)
Theorem decodeAudioData_deinterleaves
    (data : Uint8Array) (sampleRate : Z) (numChannels : nat) :
  let dataInt16 := int16_view data in
  let frames := length dataInt16 / numChannels in
  ((exists buffer, decodeAudioData data sampleRate numChannels = Normal buffer)
   -> Nat.Even (length data) /\ numChannels <> 0 /\ frames <> 0
      /\ (0 < sampleRate)%Z)
  /\ (Nat.Even (length data) -> 1 <= numChannels <= 32 -> frames <> 0 ->
      (8000 <= sampleRate <= 96000)%Z ->
      exists buffer, decodeAudioData data sampleRate numChannels = Normal buffer)
  /\ (forall buffer,
      decodeAudioData data sampleRate numChannels = Normal buffer ->
      buffer
      = {| ab_sampleRate := sampleRate;
           ab_length := frames;
           ab_channels :=
             map (fun channel =>
                    map (fun i => sample_at dataInt16 (i * numChannels + channel))
                        (seq 0 frames))
                 (seq 0 numChannels) |}
      /\ forall channel i,
           channel < numChannels -> i < frames ->
           exists x, dataInt16 !! (i * numChannels + channel) = Some x
                     /\ sample_at dataInt16 (i * numChannels + channel)
                        = Finite (x # 32768)
                     /\ is_int16 x).
Proof.
  intros dataInt16 frames.
  assert (Hconds : forall buffer,
             decodeAudioData data sampleRate numChannels = Normal buffer ->
             Nat.Even (length data) /\ numChannels <> 0 /\ frames <> 0
             /\ (0 < sampleRate)%Z).
  { intros buffer. unfold decodeAudioData, Int16Array_over, createBuffer, cbind.
    destruct (Nat.even (length data)) eqn:Heven; [|discriminate].
    unfold frames_allocated. fold dataInt16. fold frames.
    destruct (numChannels =? 0) eqn:Hnc; [discriminate|].
    destruct (frames =? 0) eqn:Hfr; [discriminate|].
    destruct (sampleRate <=? 0)%Z eqn:Hsr; [discriminate|].
    intros _. apply Nat.even_spec in Heven.
    apply Nat.eqb_neq in Hnc, Hfr. apply Z.leb_gt in Hsr. auto. }
  split; [|split].
  - intros [buffer H]. exact (Hconds buffer H).
  - intros Heven Hnc Hfr Hsr. eexists.
    apply decodeAudioData_returns; [assumption|lia|assumption|lia].
  - intros buffer H. destruct (Hconds buffer H) as (Heven & Hnc & Hfr & Hsr).
    rewrite (decodeAudioData_returns data sampleRate numChannels
               Heven Hnc Hfr Hsr) in H.
    injection H as <-. split; [reflexivity|].
    intros channel i Hch Hi.
    assert (Hin : i * numChannels + channel < length dataInt16).
    { pose proof (Nat.Div0.mul_div_le (length dataInt16) numChannels).
      fold frames in H. nia. }
    destruct (lookup_lt_is_Some_2 dataInt16 _ Hin) as [x Hx].
    exists x. split; [exact Hx|]. split.
    + unfold sample_at. rewrite Hx. reflexivity.
    + pose proof (int16_view_range data) as Hall.
      rewrite Forall_lookup in Hall. exact (Hall _ _ Hx).
Qed.

(** X7 at ten bytes read as stereo: two frames on each channel, the fifth
    sample is left out. *)
Lemma decodeAudioData_deinterleaves_witness :
  decodeAudioData [0; 0; 255; 127; 0; 128; 1; 0; 2; 0]%Z 24000 2
  = Normal {| ab_sampleRate := 24000;
              ab_length := 2;
              ab_channels := [[Finite (0 # 32768); Finite (-32768 # 32768)];
                              [Finite (32767 # 32768); Finite (1 # 32768)]] |}.
Proof.
  destruct (decodeAudioData_deinterleaves
              [0; 0; 255; 127; 0; 128; 1; 0; 2; 0]%Z 24000 2)
    as (_ & Hreturns & Hvalue).
  destruct Hreturns as [buffer Hb].
  - exists 5. reflexivity.
  - lia.
  - discriminate.
  - lia.
  - destruct (Hvalue buffer Hb) as (-> & _). exact Hb.
Defined.

Lemma decodeAudioData_mono_value (data : Uint8Array) (buffer : AudioBuffer) :
  decodeAudioData data 24000 1 = Normal buffer
  <-> Nat.Even (length data) /\ length data <> 0
      /\ buffer = {| ab_sampleRate := 24000;
                     ab_length := length data / 2;
                     ab_channels :=
                       [map (fun x => Finite (x # 32768)) (int16_view data)] |}.
Proof.
  split.
  - intros H. pose proof (decodeAudioData_mono _ _ _ H) as Hch.
    apply decodeAudioData_inv in H as (Heven & _ & Hfr & Hsr & Hlen & _).
    rewrite Nat.div_1_r, int16_view_length in Hlen, Hfr.
    apply Nat.even_spec in Heven. split; [exact Heven|].
    split; [intros Hz; rewrite Hz in Hfr; now apply Hfr|].
    destruct buffer; cbn in *; subst; reflexivity.
  - intros (Heven & Hne & ->).
    assert (Hfr : length (int16_view data) / 1 <> 0).
    { rewrite Nat.div_1_r, int16_view_length. destruct Heven as [k Hk].
      rewrite Hk, Nat.mul_comm, Nat.div_mul by lia. lia. }
    rewrite (decodeAudioData_returns data 24000 1 Heven) by (lia || exact Hfr).
    rewrite Nat.div_1_r, int16_view_length. cbn [seq map].
    rewrite <- (int16_view_length data) at 2. rewrite mono_samples.
    reflexivity.
Qed.

(** X6. [generateSpeech] returns exactly when the provider answered with
    inline data that is not empty, [atob] decodes it, and the decoded string
    has an even length other than zero; the buffer is then mono at 24000 Hz,
    has half as many frames as the string has characters, and its samples are
    the characters' codes read two by two as 16-bit integers, over 32768. *)
Theorem generateSpeech_returns
    (atob : string -> Completion string) (client : Client) (text : string)
    (buffer : AudioBuffer) :
  outcome (generateSpeech atob (Some client) text) = Normal buffer
  <-> exists response base64 binaryString,
        client (speech_request text) = Normal response
        /\ resp_inlineData response = Some base64
        /\ base64 <> EmptyString
        /\ atob base64 = Normal binaryString
        /\ Nat.Even (String.length binaryString)
        /\ String.length binaryString <> 0
        /\ buffer
           = {| ab_sampleRate := 24000;
                ab_length := String.length binaryString / 2;
                ab_channels :=
                  [map (fun x => Finite (x # 32768))
                       (int16_view
                          (map (fun c => to_uint8 (charCodeAt c))
                               (list_ascii_of_string binaryString)))] |}.
Proof.
  assert (Hlen : forall s,
             length (map (fun c => to_uint8 (charCodeAt c))
                         (list_ascii_of_string s)) = String.length s).
  { intros s. rewrite length_map.
    induction s as [|c s IH]; cbn; [reflexivity|now rewrite IH]. }
  split.
  - intros H.
    unfold generateSpeech, bind, send, lift, throw, outcome, decode, cbind in H.
    repeat (case_match; simplify_eq/=).
    match goal with
    | Hd : decodeAudioData _ _ _ = Normal _ |- _ =>
        apply decodeAudioData_mono_value in Hd as (Heven & Hne & ->)
    end.
    rewrite Hlen in Heven, Hne.
    do 3 eexists. repeat split; eauto; try discriminate.
    rewrite Hlen. reflexivity.
  - intros (response & base64 & s & Hc & Hd & Hne & Ha & Heven & Hnz & ->).
    unfold generateSpeech, bind, send, lift, outcome, decode, cbind.
    rewrite Hc, Hd. destruct base64; [congruence|]. rewrite Ha.
    cbn [snd]. apply decodeAudioData_mono_value.
    rewrite Hlen. repeat split; assumption.
Qed.

(** X6 at six bytes of audio. *)
Lemma generateSpeech_returns_witness :
  outcome (generateSpeech Examples.atob
             (Some (Examples.speaking Examples.pcm_base64)) "Hello.")
  = Normal Examples.pcm_buffer.
Proof.
  apply (generateSpeech_returns Examples.atob
           (Examples.speaking Examples.pcm_base64) "Hello.").
  exists {| resp_text := None; resp_inlineData := Some Examples.pcm_base64;
            resp_partText := None |}, Examples.pcm_base64,
    (string_of_list_ascii (map ascii_of_nat [0; 0; 255; 127; 0; 128]%nat)).
  repeat split; try discriminate. exists 3. reflexivity.
Defined.

(** * Further properties of the audio cache *)

Section AudioCacheInvariants.
Import ResultDisplay.

Lemma lookup_calls_app (st : State) (p : nat) (c : SpeechCall)
    (cs : list SpeechCall) :
  calls st !! p = Some c -> (calls st ++ cs) !! p = Some c.
Proof. intros H. rewrite lookup_app_l; [exact H|]. eapply lookup_lt_Some, H. Qed.

(** One continuation resumed keeps the refs and the awaits coherent. *)
Lemma resume_waiter_coherent (p : nat) (ok : bool) (w : Waiter) (st : State) :
  coherent st -> coherent (resume_waiter p ok w st).
Proof.
  intros (Hcur & Hprom & Hwait).
  destruct w as [s|s|s], ok; cbn [resume_waiter];
    try (split; [exact Hcur|split; [exact Hprom|exact Hwait]]).
  - destruct (String.eqb _ _);
      (split; [exact Hcur|split; [exact Hprom|exact Hwait]]).
  - unfold call_generateSpeech, await, coherent, text_of, pending in *. cbn.
    split; [exact Hcur|]. split.
    + intros q Hq. specialize (Hprom q Hq).
      destruct (calls st !! q) as [c|] eqn:E; [|discriminate].
      rewrite (lookup_calls_app st q c _ E). exact Hprom.
    + intros q w Hin. apply in_app_iff in Hin as [Hin|[[= <- <-]|[]]].
      * destruct (Hwait q w Hin) as [text E]. exists text.
        exact (lookup_calls_app st q _ _ E).
      * exists s. rewrite lookup_app_r, Nat.sub_diag by lia. reflexivity.
  - unfold play_failed, coherent, text_of, pending in *. cbn.
    split; [exact Hcur|]. split; [discriminate|exact Hwait].
Qed.

Lemma resume_waiter_loading (p : nat) (ok : bool) (w : Waiter) (st : State)
    (rest : list (nat * Waiter)) (q : nat) :
  (isAudioLoading st = true ->
   play_suspended (waiters st) \/ play_suspended ((q, w) :: rest)) ->
  isAudioLoading (resume_waiter p ok w st) = true ->
  play_suspended (waiters (resume_waiter p ok w st)) \/ play_suspended rest.
Proof.
  intros H. destruct w as [s|s|s], ok; cbn [resume_waiter].
  - assert (Hsame : forall st', isAudioLoading st' = isAudioLoading st ->
                        waiters st' = waiters st ->
                        isAudioLoading st' = true ->
                        play_suspended (waiters st') \/ play_suspended rest).
    { intros st' Hl Hw Hload. rewrite Hl in Hload. rewrite Hw.
      destruct (H Hload) as [?|(q' & w' & [[= <- <-]|Hin] & Hplay)];
        [now left|discriminate|right; now exists q', w']. }
    destruct (String.eqb _ _); apply Hsame; reflexivity.
  - intros Hload.
    destruct (H Hload) as [?|(q' & w' & [[= <- <-]|Hin] & Hplay)];
      [now left|discriminate|right; now exists q', w'].
  - cbn. discriminate.
  - intros _. left. exists (length (calls st)), (PlayAwaitFresh s).
    cbn. split; [|reflexivity]. apply in_app_iff. right. now left.
  - cbn. discriminate.
  - cbn. discriminate.
Qed.

Lemma resume_all_coherent (p : nat) (ok : bool) (mine : list (nat * Waiter))
    (st : State) :
  coherent st ->
  (isAudioLoading st = true ->
   play_suspended (waiters st) \/ play_suspended mine) ->
  let st' := fold_left (fun s '(_, w) => resume_waiter p ok w s) mine st in
  coherent st'
  /\ (isAudioLoading st' = true -> play_suspended (waiters st')).
Proof.
  revert st. induction mine as [|[q w] mine IH]; intros st Hco Hload; cbn.
  - split; [exact Hco|]. intros H. destruct (Hload H) as [?|(? & ? & [] & _)].
    assumption.
  - apply IH.
    + now apply resume_waiter_coherent.
    + now apply (resume_waiter_loading p ok w st mine q).
Qed.

Lemma playAudio_body_coherent (sentence : string) (st : State) :
  coherent st ->
  (isAudioLoading st = true -> play_suspended (waiters st)) ->
  let st' := playAudio_body sentence st in
  coherent st'
  /\ (isAudioLoading st' = true -> play_suspended (waiters st')).
Proof.
  intros Hco Hload. pose proof Hco as (Hcur & Hprom & Hwait).
  unfold playAudio_body. destruct (audioCache st); [split; assumption|].
  cbn [audioPromise setIsAudioLoading].
  destruct (audioPromise st) as [p|] eqn:Hp.
  - specialize (Hprom p eq_refl). unfold text_of in Hprom.
    unfold await_promise. cbn [calls setIsAudioLoading].
    destruct (calls st !! p) as [[text state]|] eqn:Hcall; [|discriminate].
    destruct state; cbn [fmap option_fmap option_map sc_state].
    + split.
      * split; [exact Hcur|]. split.
        { intros q Hq. cbn in Hq. rewrite Hp in Hq. injection Hq as <-.
          unfold text_of. cbn. now rewrite Hcall. }
        { intros q w Hin. cbn in Hin. apply in_app_iff in Hin as [Hin|[[= <- <-]|[]]].
          - exact (Hwait q w Hin).
          - exists text. exact Hcall. }
      * intros _. exists p, (PlayAwaitStored sentence). cbn.
        split; [|reflexivity]. apply in_app_iff. right. now left.
    + split; [|cbn; discriminate].
      apply (resume_waiter_coherent p true (PlayAwaitStored sentence)
               (setIsAudioLoading true st)).
      split; [exact Hcur|]. split; [|exact Hwait].
      intros q Hq. cbn in Hq. rewrite Hp in Hq. injection Hq as <-.
      unfold text_of. cbn. now rewrite Hcall.
    + split.
      * apply (resume_waiter_coherent p false (PlayAwaitStored sentence)
                 (setIsAudioLoading true st)).
        split; [exact Hcur|]. split; [|exact Hwait].
        intros q Hq. cbn in Hq. rewrite Hp in Hq. injection Hq as <-.
        unfold text_of. cbn. now rewrite Hcall.
      * intros _. exists (length (calls st)), (PlayAwaitFresh sentence). cbn.
        split; [|reflexivity]. apply in_app_iff. right. now left.
  - split.
    + apply (resume_waiter_coherent 0 false (PlayAwaitStored sentence)
               (setIsAudioLoading true st)).
      split; [exact Hcur|]. split; [|exact Hwait].
      intros q Hq. cbn in Hq. congruence.
    + intros _. exists (length (calls st)), (PlayAwaitFresh sentence). cbn.
      split; [|reflexivity]. apply in_app_iff. right. now left.
Qed.

Lemma step_coherent (st : State) (e : Event) :
  coherent st ->
  (isAudioLoading st = true -> play_suspended (waiters st)) ->
  coherent (step st e)
  /\ (isAudioLoading (step st e) = true -> play_suspended (waiters (step st e))).
Proof.
  intros Hco Hload. pose proof Hco as (Hcur & Hprom & Hwait).
  destruct e as [sentence|suspended|i ok|p ok|]; cbn [step].
  - destruct (String.eqb sentence (englishSentence st)); [split; assumption|].
    unfold prefetch_effect, call_generateSpeech, await, coherent, text_of,
      pending. cbn. split; [split; [reflexivity|split]|].
    + intros q [= <-]. rewrite lookup_app_r, Nat.sub_diag by lia. reflexivity.
    + intros q w Hin. apply in_app_iff in Hin as [Hin|[[= <- <-]|[]]].
      * destruct (Hwait q w Hin) as [text E]. exists text.
        rewrite lookup_app_l; [exact E|]. eapply lookup_lt_Some, E.
      * eexists. rewrite lookup_app_r, Nat.sub_diag by lia. reflexivity.
    + intros H. destruct (Hload H) as (q & w & Hin & Hplay).
      exists q, w. split; [|exact Hplay]. apply in_app_iff. now left.
  - destruct (isAudioLoading st) eqn:Hl;
      [split; [assumption|intros _; now apply Hload]|].
    unfold playAudio. destruct (isAudioPlaying st); [split; [assumption|]|].
    { rewrite Hl. discriminate. }
    destruct suspended.
    + split; [exact Hco|]. cbn. rewrite Hl. discriminate.
    + apply playAudio_body_coherent; [exact Hco|]. rewrite Hl. discriminate.
  - destruct (resuming st !! i) as [sentence|]; [|split; assumption].
    destruct ok; [|split; assumption].
    apply playAudio_body_coherent; assumption.
  - unfold settle.
    destruct (calls st !! p) as [[text []]|] eqn:Hcall; try (split; assumption).
    apply resume_all_coherent.
    + unfold coherent, text_of, pending. cbn. split; [exact Hcur|]. split.
      * intros q Hq. specialize (Hprom q Hq). unfold text_of in Hprom.
        destruct (decide (q = p)) as [->|Hne].
        -- rewrite list_lookup_insert_eq by (eapply lookup_lt_Some, Hcall).
           rewrite Hcall in Hprom. exact Hprom.
        -- rewrite list_lookup_insert_ne by congruence. exact Hprom.
      * intros q w Hin. apply filter_In in Hin as [Hin Hq].
        apply negb_true_iff, Nat.eqb_neq in Hq.
        rewrite list_lookup_insert_ne by congruence. exact (Hwait q w Hin).
    + cbn. intros H. destruct (Hload H) as (q & w & Hin & Hplay).
      destruct (Nat.eqb q p) eqn:Hq.
      * right. exists q, w. split; [|exact Hplay].
        apply filter_In. split; [exact Hin|exact Hq].
      * left. exists q, w. split; [|exact Hplay].
        apply filter_In. split; [exact Hin|]. now rewrite Hq.
  - split; assumption.
Qed.

Lemma mount_coherent (sentence : string) :
  coherent (mount sentence)
  /\ (isAudioLoading (mount sentence) = true ->
      play_suspended (waiters (mount sentence))).
Proof.
  split; [|discriminate]. split; [reflexivity|]. split.
  - intros p [= <-]. reflexivity.
  - intros p w [[= <- <-]|[]]. eexists. reflexivity.
Qed.

Lemma run_coherent (trace : list Event) (st : State) :
  coherent st ->
  (isAudioLoading st = true -> play_suspended (waiters st)) ->
  coherent (run st trace)
  /\ (isAudioLoading (run st trace) = true ->
      play_suspended (waiters (run st trace))).
Proof.
  revert st. induction trace as [|e trace IH]; intros st Hco Hload.
  - split; assumption.
  - cbn [run fold_left]. destruct (step_coherent st e Hco Hload).
    now apply IH.
Qed.

End AudioCacheInvariants.

Section AudioCacheTheorems.
Import ResultDisplay.

(** X8. After every event the ref [currentSentenceRef] holds the sentence
    of the last render, and a stored promise is the promise of a call of
    [generateSpeech] that was given that sentence. *)
Theorem stored_promise_is_for_current_sentence
    (sentence : string) (trace : list Event) :
  let st := run (mount sentence) trace in
  currentSentence st = englishSentence st
  /\ forall p, audioPromise st = Some p ->
       exists call, calls st !! p = Some call
                    /\ sc_text call = currentSentence st.
Proof.
  intros st.
  destruct (run_coherent trace (mount sentence)) as ((Hcur & Hprom & _) & _);
    try apply mount_coherent.
  split; [exact Hcur|]. intros p Hp. specialize (Hprom p Hp).
  unfold text_of in Hprom. fold st in Hprom.
  destruct (calls st !! p) as [call|]; [|discriminate].
  exists call. split; [reflexivity|]. now injection Hprom.
Qed.

(** X8 after a change of sentence and a failed [playAudio]. *)
Lemma stored_promise_is_for_current_sentence_witness :
  exists call,
    calls (run (mount "I go.") [Click false; Render "She goes."; Settle 0 false])
      !! 1 = Some call
    /\ sc_text call = "She goes."%string.
Proof.
  destruct (stored_promise_is_for_current_sentence "I go."
              [Click false; Render "She goes."; Settle 0 false])
    as (_ & Hprom).
  apply (Hprom 1). vm_compute. reflexivity.
Defined.

(** X9. Every suspended await is on a promise that is still pending, and
    whenever [isAudioLoading] is set (the play button is disabled) a
    [playAudio] is suspended on such a promise: the button is never left
    disabled with nothing in flight. *)
Theorem loading_has_playAudio_in_flight
    (sentence : string) (trace : list Event) :
  let st := run (mount sentence) trace in
  (forall p w, In (p, w) (waiters st) -> pending st p)
  /\ (isAudioLoading st = true ->
      exists p w, In (p, w) (waiters st) /\ is_play w = true /\ pending st p).
Proof.
  intros st.
  destruct (run_coherent trace (mount sentence)) as ((_ & _ & Hwait) & Hload);
    try apply mount_coherent.
  split; [exact Hwait|]. intros H.
  destruct (Hload H) as (p & w & Hin & Hplay). exists p, w.
  repeat split; [exact Hin|exact Hplay|exact (Hwait p w Hin)].
Qed.

(** X9 while the retry of a failed prefetch is in flight. *)
Lemma loading_has_playAudio_in_flight_witness :
  exists p w,
    In (p, w) (waiters (run (mount "I go.") [Click false; Settle 0 false]))
    /\ is_play w = true
    /\ pending (run (mount "I go.") [Click false; Settle 0 false]) p.
Proof.
  destruct (loading_has_playAudio_in_flight "I go."
              [Click false; Settle 0 false]) as (_ & Hload).
  apply Hload. vm_compute. reflexivity.
Defined.

Lemma text_of_grows (st : State) (p : nat) (s : string)
    (cs : list SpeechCall) :
  text_of st p = Some s -> sc_text <$> (calls st ++ cs) !! p = Some s.
Proof.
  unfold text_of. intros H.
  destruct (calls st !! p) as [c|] eqn:E; [|discriminate].
  rewrite lookup_app_l; [now rewrite E|]. eapply lookup_lt_Some, E.
Qed.

Lemma buffer_of_spoken (st : State) (p : nat) (s : string) :
  text_of st p = Some s -> spoken (buffer_of p st) = s.
Proof. unfold text_of, buffer_of. cbn. now intros ->. Qed.

(** One continuation resumed on the settling of [p]. *)
Lemma resume_waiter_up_to_date (p : nat) (ok : bool) (w : Waiter) (st : State) :
  up_to_date st ->
  text_of st p = Some (closure_of w) ->
  (is_play w = true -> closure_of w = currentSentence st) ->
  let st' := resume_waiter p ok w st in
  up_to_date st'
  /\ currentSentence st' = currentSentence st
  /\ (forall q s, text_of st q = Some s -> text_of st' q = Some s).
Proof.
  intros (Hcache & Hwait & Hres) Htext Hplay.
  destruct w as [s|s|s], ok; cbn [resume_waiter closure_of is_play] in *.
  - destruct (String.eqb_spec (currentSentence st) s) as [Heq|Hne].
    + split; [|split; [reflexivity|intros q s' Hq; exact Hq]].
      split; [|split; [exact Hwait|exact Hres]].
      intros b [= <-]. rewrite (buffer_of_spoken st p s Htext).
      exact (eq_sym Heq).
    + split; [|split; [reflexivity|intros q s' Hq; exact Hq]].
      split; [exact Hcache|split; [exact Hwait|exact Hres]].
  - split; [|split; [reflexivity|intros q s' Hq; exact Hq]].
    split; [exact Hcache|split; [exact Hwait|exact Hres]].
  - split; [|split; [reflexivity|intros q s' Hq; exact Hq]].
    split; [|split; [exact Hwait|exact Hres]].
    intros b [= <-]. rewrite (buffer_of_spoken st p s Htext).
    exact (Hplay eq_refl).
  - unfold call_generateSpeech, await, up_to_date, text_of. cbn.
    split; [|split; [reflexivity|intros q s'; apply text_of_grows]].
    split; [exact Hcache|]. split; [|exact Hres].
    intros q w Hin. apply in_app_iff in Hin as [Hin|[[= <- <-]|[]]].
    + destruct (Hwait q w Hin) as [Ht Hp]. split; [|exact Hp].
      now apply text_of_grows.
    + cbn. rewrite lookup_app_r, Nat.sub_diag by lia. split; [reflexivity|].
      intros _. now apply Hplay.
  - split; [|split; [reflexivity|intros q s' Hq; exact Hq]].
    split; [|split; [exact Hwait|exact Hres]].
    intros b [= <-]. rewrite (buffer_of_spoken st p s Htext).
    exact (Hplay eq_refl).
  - split; [|split; [reflexivity|intros q s' Hq; exact Hq]].
    split; [exact Hcache|split; [exact Hwait|exact Hres]].
Qed.

Lemma resume_all_up_to_date (p : nat) (ok : bool) (mine : list (nat * Waiter))
    (st : State) :
  up_to_date st ->
  (forall q w, In (q, w) mine ->
     text_of st p = Some (closure_of w)
     /\ (is_play w = true -> closure_of w = currentSentence st)) ->
  up_to_date (fold_left (fun s '(_, w) => resume_waiter p ok w s) mine st).
Proof.
  revert st. induction mine as [|[q w] mine IH]; intros st Hfresh Hmine.
  - exact Hfresh.
  - cbn [fold_left]. destruct (Hmine q w (or_introl eq_refl)) as [Ht Hp].
    destruct (resume_waiter_up_to_date p ok w st Hfresh Ht Hp) as (Hf & Hcur & Hgrow).
    apply IH; [exact Hf|]. intros q' w' Hin.
    destruct (Hmine q' w' (or_intror Hin)) as [Ht' Hp'].
    split; [now apply Hgrow|]. rewrite Hcur. exact Hp'.
Qed.

Lemma playAudio_body_up_to_date (sentence : string) (st : State) :
  coherent st -> up_to_date st -> sentence = currentSentence st ->
  up_to_date (playAudio_body sentence st).
Proof.
  intros (Hcur & Hprom & _) Hfresh ->. pose proof Hfresh as (Hcache & Hwait & Hres).
  unfold playAudio_body.
  destruct (audioCache st) eqn:Hc; [exact Hfresh|].
  cbn [audioPromise setIsAudioLoading].
  assert (Hfresh' : up_to_date (setIsAudioLoading true st)) by exact Hfresh.
  destruct (audioPromise st) as [p|] eqn:Hp.
  - specialize (Hprom p eq_refl).
    unfold await_promise. cbn [calls setIsAudioLoading].
    pose proof Hprom as Hstate. unfold text_of in Hstate.
    destruct (calls st !! p) as [[text state]|] eqn:Hcall; [|discriminate].
    destruct state; cbn [fmap option_fmap option_map sc_state].
    + split; [exact (proj1 Hfresh')|]. split; [|exact Hres].
      intros q w Hin. cbn in Hin.
      apply in_app_iff in Hin as [Hin|[[= <- <-]|[]]].
      * exact (Hwait q w Hin).
      * split; [exact Hprom|reflexivity].
    + apply (resume_waiter_up_to_date p true (PlayAwaitStored (currentSentence st))
               (setIsAudioLoading true st) Hfresh' Hprom). reflexivity.
    + apply (resume_waiter_up_to_date p false (PlayAwaitStored (currentSentence st))
               (setIsAudioLoading true st) Hfresh' Hprom). reflexivity.
  - unfold call_generateSpeech, await, up_to_date, text_of. cbn.
    split; [rewrite Hc; discriminate|]. split; [|exact Hres].
    intros q w Hin. apply in_app_iff in Hin as [Hin|[[= <- <-]|[]]].
    + destruct (Hwait q w Hin) as [Ht Hpl]. split; [|exact Hpl].
      now apply text_of_grows.
    + cbn. rewrite lookup_app_r, Nat.sub_diag by lia. split; reflexivity.
Qed.

Lemma step_up_to_date (st : State) (e : Event) :
  coherent st -> up_to_date st ->
  match e with
  | Render sentence => String.eqb sentence (englishSentence st) || idle st
  | _ => true
  end = true ->
  up_to_date (step st e).
Proof.
  intros Hco Hfresh Hidle. pose proof Hco as (Hcur & Hprom & Hpend).
  pose proof Hfresh as (Hcache & Hwait & Hres).
  destruct e as [sentence|suspended|i ok|p ok|]; cbn [step].
  - destruct (String.eqb sentence (englishSentence st)); [exact Hfresh|].
    cbn [orb] in Hidle. unfold idle in Hidle.
    apply andb_prop in Hidle as [Hnoplay Hnores].
    rewrite forallb_forall in Hnoplay.
    destruct (resuming st) eqn:Hr; [|discriminate].
    unfold prefetch_effect, call_generateSpeech, await, up_to_date, text_of. cbn.
    split; [discriminate|]. rewrite Hr. split; [|constructor].
    intros q w Hin. apply in_app_iff in Hin as [Hin|[[= <- <-]|[]]].
    + destruct (Hwait q w Hin) as [Ht _]. split; [now apply text_of_grows|].
      intros Hplay. specialize (Hnoplay _ Hin). cbn in Hnoplay.
      rewrite Hplay in Hnoplay. discriminate.
    + cbn. rewrite lookup_app_r, Nat.sub_diag by lia. split; [reflexivity|].
      discriminate.
  - destruct (isAudioLoading st); [exact Hfresh|].
    unfold playAudio. destruct (isAudioPlaying st); [exact Hfresh|].
    destruct suspended.
    + split; [exact Hcache|]. split; [exact Hwait|]. cbn.
      apply Forall_app. split; [exact Hres|]. repeat constructor.
      now symmetry.
    + apply playAudio_body_up_to_date; [exact Hco|exact Hfresh|now symmetry].
  - destruct (resuming st !! i) as [sentence|] eqn:Hi; [|exact Hfresh].
    assert (Hs : sentence = currentSentence st).
    { rewrite Forall_lookup in Hres. exact (Hres i sentence Hi). }
    assert (Hfresh' : up_to_date (set_resuming (delete i (resuming st)) st)).
    { split; [exact Hcache|]. split; [exact Hwait|]. cbn.
      now apply Forall_delete. }
    destruct ok; [|exact Hfresh'].
    apply playAudio_body_up_to_date; [exact Hco|exact Hfresh'|exact Hs].
  - unfold settle.
    destruct (calls st !! p) as [[text []]|] eqn:Hcall; try exact Hfresh.
    assert (Hkeep : forall q s, text_of st q = Some s ->
              sc_text <$> <[p:={| sc_text := text;
                                  sc_state := if ok then Fulfilled else Rejected |}]>
                            (calls st) !! q = Some s).
    { intros q s Hq. unfold text_of in Hq. destruct (decide (q = p)) as [->|Hne].
      - rewrite list_lookup_insert_eq by (eapply lookup_lt_Some, Hcall).
        rewrite Hcall in Hq. exact Hq.
      - rewrite list_lookup_insert_ne by congruence. exact Hq. }
    apply resume_all_up_to_date.
    + split; [exact Hcache|]. split; [|exact Hres].
      intros q w Hin. cbn in Hin. apply filter_In in Hin as [Hin _].
      destruct (Hwait q w Hin) as [Ht Hpl]. split; [|exact Hpl].
      unfold text_of. cbn. now apply Hkeep.
    + intros q w Hin. apply filter_In in Hin as [Hin Hq].
      apply Nat.eqb_eq in Hq. subst q.
      destruct (Hwait p w Hin) as [Ht Hpl]. split; [|exact Hpl].
      unfold text_of. cbn. now apply Hkeep.
  - exact Hfresh.
Qed.

Lemma mount_up_to_date (sentence : string) : up_to_date (mount sentence).
Proof.
  split; [discriminate|]. split; [|constructor].
  intros p w [[= <- <-]|[]]. split; [reflexivity|discriminate].
Qed.

Lemma run_up_to_date (trace : list Event) (st : State) :
  coherent st ->
  (isAudioLoading st = true -> play_suspended (waiters st)) ->
  up_to_date st -> renders_when_idle st trace = true ->
  up_to_date (run st trace).
Proof.
  revert st. induction trace as [|e trace IH]; intros st Hco Hload Hfresh Hidle.
  - exact Hfresh.
  - cbn [renders_when_idle] in Hidle. apply andb_prop in Hidle as [He Hrest].
    cbn [run fold_left]. destruct (step_coherent st e Hco Hload).
    apply IH; try assumption. now apply step_up_to_date.
Qed.

(** X10. As long as the sentence only changes while no [playAudio] is
    suspended (at [context.resume()] or at the await of a speech promise),
    the cache never holds the audio of another sentence than the current
    one, whatever is clicked and whichever promises are rejected. *)
Theorem cache_fresh_when_renders_idle
    (sentence : string) (trace : list Event)
    (Hidle : renders_when_idle (mount sentence) trace = true) :
  let st := run (mount sentence) trace in
  forall b, audioCache st = Some b ->
    spoken b = currentSentence st /\ spoken b = englishSentence st.
Proof.
  intros st b Hb.
  destruct (run_coherent trace (mount sentence)) as ((Hcur & _) & _);
    try apply mount_coherent.
  destruct (run_up_to_date trace (mount sentence)) as (Hcache & _);
    try apply mount_coherent; [apply mount_up_to_date|exact Hidle|].
  fold st in Hcur, Hcache. rewrite <- Hcur. split; exact (Hcache b Hb).
Qed.

(** X10 along a run with a failed prefetch, a retry, and a change of
    sentence once the audio has played. *)
Lemma cache_fresh_when_renders_idle_witness :
  exists b,
    audioCache (run (mount "I go.")
                  [Click false; Settle 0 false; Settle 1 true; Ended;
                   Render "She goes."; Click false; Settle 2 true])
    = Some b
    /\ spoken b = "She goes."%string.
Proof.
  exists {| spoken := "She goes."; from_call := 2 |}.
  split; [vm_compute; reflexivity|].
  apply (cache_fresh_when_renders_idle "I go."
           [Click false; Settle 0 false; Settle 1 true; Ended;
            Render "She goes."; Click false; Settle 2 true]).
  - vm_compute. reflexivity.
  - vm_compute. reflexivity.
Defined.

End AudioCacheTheorems.

Section AudioCacheAlerts.
Import ResultDisplay.

Lemma fresh_ids_app (ws ws' : list (nat * Waiter)) :
  fresh_ids (ws ++ ws') = fresh_ids ws ++ fresh_ids ws'.
Proof.
  induction ws as [|[p [s|s|s]] ws IH]; cbn; rewrite ?IH; reflexivity.
Qed.

Lemma fresh_ids_filter (f : nat * Waiter -> bool) (ws : list (nat * Waiter)) :
  fresh_ids (List.filter f ws) `sublist_of` fresh_ids ws.
Proof.
  induction ws as [|[p w] ws IH]; cbn; [constructor|].
  destruct (f (p, w)), w; cbn; try exact IH;
    try (now apply sublist_skip); try (now apply sublist_cons).
Qed.

Lemma fresh_ids_valid (st : State) :
  coherent st -> Forall (fun q => q < length (calls st)) (fresh_ids (waiters st)).
Proof.
  intros (_ & _ & Hwait). revert Hwait. generalize (waiters st) as ws.
  induction ws as [|[p w] ws IH]; intros Hwait; [constructor|].
  assert (IH' := IH (fun q w' Hin => Hwait q w' (or_intror Hin))).
  destruct w; cbn; try exact IH'. constructor; [|exact IH'].
  destruct (Hwait p _ (or_introl eq_refl)) as [text E].
  eapply lookup_lt_Some, E.
Qed.

(** The awaits of [mine] are all on [p]: of those that made their own call
    there is at most one. *)
Lemma at_most_one_fresh (p : nat) (ws : list (nat * Waiter)) :
  NoDup (fresh_ids ws) ->
  length (fresh_ids (List.filter (fun '(q, _) => Nat.eqb q p) ws)) <= 1.
Proof.
  intros Hnd.
  set (l := fresh_ids (List.filter (fun '(q, _) => Nat.eqb q p) ws)).
  assert (Hnd' : NoDup l)
    by (eapply sublist_NoDup; [exact Hnd|apply fresh_ids_filter]).
  assert (Hall : Forall (fun q => q = p) l).
  { subst l. clear. induction ws as [|[q w] ws IH]; cbn; [constructor|].
    destruct (Nat.eqb_spec q p) as [->|]; [|exact IH].
    destruct w; cbn; try exact IH. now constructor. }
  clearbody l. destruct l as [|a [|b l]]; cbn; try lia.
  apply Forall_cons in Hall as [-> Hall]. apply Forall_cons in Hall as [-> _].
  apply NoDup_cons in Hnd' as [Hnotin _]. exfalso. apply Hnotin. now left.
Qed.

Lemma resume_waiter_alerts (p : nat) (ok : bool) (w : Waiter) (st : State) :
  Forall (fun q => q < length (calls st)) (fresh_ids (waiters st)) ->
  NoDup (fresh_ids (waiters st)) ->
  let st' := resume_waiter p ok w st in
  Forall (fun q => q < length (calls st')) (fresh_ids (waiters st'))
  /\ NoDup (fresh_ids (waiters st'))
  /\ alerts st'
     = alerts st + match w, ok with PlayAwaitFresh _, false => 1 | _, _ => 0 end.
Proof.
  intros Hvalid Hnd.
  destruct w as [s|s|s], ok; cbn [resume_waiter];
    try (cbn; split; [exact Hvalid|split; [exact Hnd|lia]]).
  - destruct (String.eqb _ _); cbn; (split; [exact Hvalid|split; [exact Hnd|lia]]).
  - unfold call_generateSpeech, await. cbn.
    rewrite fresh_ids_app, length_app. cbn. split; [|split; [|lia]].
    + apply Forall_app. split; [|repeat constructor; lia].
      eapply Forall_impl; [exact Hvalid|]. cbn. intros; lia.
    + apply NoDup_app. split; [exact Hnd|]. split; [|apply NoDup_singleton].
      intros q Hq Hq'. apply list_elem_of_singleton in Hq'. subst q.
      rewrite Forall_forall in Hvalid. specialize (Hvalid _ Hq). lia.
Qed.

Lemma resume_all_alerts (p : nat) (ok : bool) (mine : list (nat * Waiter))
    (st : State) :
  Forall (fun q => q < length (calls st)) (fresh_ids (waiters st)) ->
  NoDup (fresh_ids (waiters st)) ->
  let st' := fold_left (fun s '(_, w) => resume_waiter p ok w s) mine st in
  NoDup (fresh_ids (waiters st'))
  /\ alerts st' = alerts st + (if ok then 0 else length (fresh_ids mine)).
Proof.
  revert st. induction mine as [|[q w] mine IH]; intros st Hvalid Hnd.
  - cbn. split; [exact Hnd|]. destruct ok; lia.
  - cbn [fold_left].
    destruct (resume_waiter_alerts p ok w st Hvalid Hnd) as (Hv & Hn & Ha).
    destruct (IH _ Hv Hn) as (Hn' & Ha'). split; [exact Hn'|].
    rewrite Ha', Ha. destruct w, ok; cbn; lia.
Qed.

Lemma playAudio_body_alerts (sentence : string) (st : State) :
  coherent st -> NoDup (fresh_ids (waiters st)) ->
  let st' := playAudio_body sentence st in
  NoDup (fresh_ids (waiters st')) /\ alerts st' = alerts st.
Proof.
  intros Hco Hnd. pose proof (fresh_ids_valid st Hco) as Hvalid.
  unfold playAudio_body. destruct (audioCache st); [split; [exact Hnd|reflexivity]|].
  cbn [audioPromise setIsAudioLoading].
  assert (Hretry : forall p,
             let st' := resume_waiter p false (PlayAwaitStored sentence)
                          (setIsAudioLoading true st) in
             NoDup (fresh_ids (waiters st')) /\ alerts st' = alerts st).
  { intros p.
    destruct (resume_waiter_alerts p false (PlayAwaitStored sentence)
                (setIsAudioLoading true st) Hvalid Hnd) as (_ & Hn & Ha).
    split; [exact Hn|]. rewrite Ha. cbn. lia. }
  destruct (audioPromise st) as [p|]; [|exact (Hretry 0)].
  unfold await_promise. cbn [calls setIsAudioLoading].
  destruct (sc_state <$> calls st !! p) as [[]|].
  - unfold await. cbn. rewrite fresh_ids_app. cbn. rewrite app_nil_r. now split.
  - cbn. now split.
  - exact (Hretry p).
  - unfold await. cbn. rewrite fresh_ids_app. cbn. rewrite app_nil_r. now split.
Qed.

Lemma step_alerts (st : State) (e : Event) :
  coherent st -> NoDup (fresh_ids (waiters st)) ->
  NoDup (fresh_ids (waiters (step st e)))
  /\ alerts (step st e) <= alerts st + (if is_failure e then 1 else 0)
  /\ alerts st <= alerts (step st e).
Proof.
  intros Hco Hnd.
  destruct e as [sentence|suspended|i ok|p ok|]; cbn [step is_failure].
  - destruct (String.eqb _ _); [split; [exact Hnd|lia]|].
    unfold prefetch_effect, call_generateSpeech, await. cbn.
    rewrite fresh_ids_app. cbn. rewrite app_nil_r. split; [exact Hnd|lia].
  - destruct (isAudioLoading st); [split; [exact Hnd|lia]|].
    unfold playAudio. destruct (isAudioPlaying st); [split; [exact Hnd|lia]|].
    destruct suspended; [split; [exact Hnd|cbn; lia]|].
    destruct (playAudio_body_alerts (englishSentence st) st Hco Hnd) as [Hn Ha].
    split; [exact Hn|]. rewrite Ha. lia.
  - destruct (resuming st !! i) as [sentence|]; [|split; [exact Hnd|lia]].
    destruct ok; [|split; [exact Hnd|cbn; lia]].
    destruct (playAudio_body_alerts sentence
                (set_resuming (delete i (resuming st)) st) Hco Hnd) as [Hn Ha].
    split; [exact Hn|]. rewrite Ha. cbn. lia.
  - unfold settle.
    destruct (calls st !! p) as [[text []]|] eqn:Hcall;
      try (split; [exact Hnd|destruct ok; lia]).
    set (settled := {| sc_text := text;
                       sc_state := if ok then Fulfilled else Rejected |}).
    set (mine := List.filter (fun '(q, _) => q =? p) (waiters st)).
    set (others := List.filter (fun '(q, _) => negb (q =? p)) (waiters st)).
    set (st0 := set_waiters others (set_calls (<[p:=settled]> (calls st)) st)).
    assert (Hnd0 : NoDup (fresh_ids (waiters st0))).
    { cbn. eapply sublist_NoDup; [exact Hnd|apply fresh_ids_filter]. }
    assert (Hv0 : Forall (fun q => q < length (calls st0))
                    (fresh_ids (waiters st0))).
    { cbn. rewrite length_insert.
      pose proof (fresh_ids_valid st Hco) as Hv.
      rewrite Forall_forall in Hv |- *. intros q Hq. apply Hv.
      eapply elem_of_sublist; [exact Hq|apply fresh_ids_filter]. }
    destruct (resume_all_alerts p ok mine st0 Hv0 Hnd0) as (Hn & Ha).
    split; [exact Hn|]. rewrite Ha. cbn [alerts st0 set_waiters set_calls].
    pose proof (at_most_one_fresh p (waiters st) Hnd) as Hone. fold mine in Hone.
    destruct ok; lia.
  - split; [exact Hnd|cbn; lia].
Qed.

(** X11. The alert of [playAudio] is shown at most once for each rejected
    speech promise, and never without one. *)
Theorem alerts_bounded_by_failures (sentence : string) (trace : list Event) :
  alerts (run (mount sentence) trace) <= failures trace.
Proof.
  assert (Hgen : forall trace st,
             coherent st ->
             (isAudioLoading st = true -> play_suspended (waiters st)) ->
             NoDup (fresh_ids (waiters st)) ->
             alerts (run st trace) <= alerts st + failures trace).
  { clear. induction trace as [|e trace IH]; intros st Hco Hload Hnd.
    - cbn. lia.
    - cbn [run fold_left]. destruct (step_coherent st e Hco Hload) as [Hco' Hload'].
      destruct (step_alerts st e Hco Hnd) as (Hnd' & Hle & _).
      specialize (IH _ Hco' Hload' Hnd'). fold (run (step st e) trace).
      unfold failures in *. cbn [List.filter].
      destruct (is_failure e); cbn [length]; lia. }
  specialize (Hgen trace (mount sentence)).
  destruct (mount_coherent sentence) as [Hco Hload].
  specialize (Hgen Hco Hload). cbn in Hgen. apply Hgen. constructor.
Qed.

End AudioCacheAlerts.

(** * Properties of the views and handlers *)

Lemma append_associative (a b c : string) :
  ((a ++ b) ++ c)%string = (a ++ (b ++ c))%string.
Proof. induction a as [|x a IH]; cbn; [reflexivity|now rewrite IH]. Qed.

Lemma revised_text_app (a b : list WritingView.Node) :
  WritingView.revised_text (a ++ b)
  = (WritingView.revised_text a ++ WritingView.revised_text b)%string.
Proof.
  induction a as [|[t|t| |t] a IH]; cbn; rewrite ?IH;
    try reflexivity; now rewrite append_associative.
Qed.

Lemma arrows_app (a b : list WritingView.Node) :
  WritingView.arrows (a ++ b) = WritingView.arrows a + WritingView.arrows b.
Proof.
  unfold WritingView.arrows. now rewrite List.filter_app, length_app.
Qed.

Lemma revised_text_segment (s : WritingSegment) :
  WritingView.revised_text (WritingView.UnifiedSegmentRenderer s) = seg_text s.
Proof.
  unfold WritingView.UnifiedSegmentRenderer.
  destruct (seg_type s); cbn; [apply append_empty_r|].
  destruct (WritingView.truthy_opt (seg_original s)), (seg_text s); cbn;
    rewrite ?append_empty_r; reflexivity.
Qed.

Lemma arrows_segment (s : WritingSegment) :
  WritingView.arrows (WritingView.UnifiedSegmentRenderer s)
  = if WritingView.arrow_shown s then 1 else 0.
Proof.
  unfold WritingView.UnifiedSegmentRenderer, WritingView.arrow_shown.
  destruct (seg_type s); [reflexivity|].
  destruct (WritingView.truthy_opt (seg_original s)), (seg_text s); reflexivity.
Qed.

(** X12. In the diff view, the text on the page without the struck-out
    spans is the text [copyFullText] copies; and there is one arrow for
    each changed segment that has both an original and a text, so at most
    as many arrows as the badge counts changes. *)
Theorem diff_view_shows_copied_text (r : WritingResult) :
  Some (WritingView.revised_text (WritingView.diff_view r))
  = WritingPage.copyFullText (Some r)
  /\ WritingView.arrows (WritingView.diff_view r)
     = length (List.filter WritingView.arrow_shown (wr_segments r))
  /\ WritingView.arrows (WritingView.diff_view r) <= WritingView.change_count r.
Proof.
  unfold WritingView.diff_view, WritingView.change_count, WritingPage.copyFullText.
  rewrite Array_join_texts.
  induction (wr_segments r) as [|s segments (IHtext & IHeq & IHle)].
  - repeat split. cbn. lia.
  - cbn [flat_map texts_in_order foldr List.filter].
    rewrite revised_text_app, arrows_app, revised_text_segment, arrows_segment.
    injection IHtext as ->. split; [reflexivity|].
    destruct (WritingView.arrow_shown s) eqn:E, (seg_type s) eqn:T;
      unfold WritingView.arrow_shown in E; rewrite T in E;
      try discriminate; cbn [length]; split; lia.
Qed.

Lemma json_outcome_analyze (JSON_parse : string -> Completion Value)
    (client : Client) (sentence : string) (level : ModelLevel) :
  (exists v, outcome (analyzeSentence JSON_parse (Some client) sentence level)
             = Normal v)
  \/ outcome (analyzeSentence JSON_parse (Some client) sentence level)
     = Throw (Error analyze_failed).
Proof. run_service; eauto. Qed.

Lemma json_outcome_lookup (JSON_parse : string -> Completion Value)
    (client : Client) (word : string) (level : ModelLevel) :
  (exists v, outcome (lookupWord JSON_parse (Some client) word level) = Normal v)
  \/ outcome (lookupWord JSON_parse (Some client) word level)
     = Throw (Error lookup_failed).
Proof. run_service; eauto. Qed.

Lemma json_outcome_writing (JSON_parse : string -> Completion Value)
    (client : Client) (text : string) (mode : WritingMode) (level : ModelLevel) :
  (exists r, outcome (evaluateWriting JSON_parse (Some client) text mode level)
             = Normal r)
  \/ outcome (evaluateWriting JSON_parse (Some client) text mode level)
     = Throw (Error writing_failed).
Proof. run_service; eauto. Qed.

(** * The handlers that await the service *)

Section HandlerFacts.
Import AsyncHandler.

Context {UI Args Act : Type}.

Lemma requests_app (t t' : list Effect) :
  requests (t ++ t') = requests t ++ requests t'.
Proof.
  induction t as [|[] t IH]; cbn; rewrite ?IH; reflexivity.
Qed.

Lemma requests_sent (t : list Effect) :
  requests (List.filter is_request t) = requests t.
Proof.
  induction t as [|[] t IH]; cbn; rewrite ?IH; reflexivity.
Qed.

Lemma requests_later (t : list Effect) :
  requests (List.filter (fun e => negb (is_request e)) t) = [].
Proof.
  induction t as [|[] t IH]; cbn; rewrite ?IH; reflexivity.
Qed.

Lemma step_requests (h : Handler UI Args Act) (st : Running UI Args)
    (e : Event Args Act) :
  (forall args s, length (requests (effects (awaited h args s))) <= 1) ->
  (forall args err s, requests (snd (rejected h args err s)) = []) ->
  quiet st ->
  quiet (step h st e)
  /\ length (requests (log (step h st e)))
     <= length (requests (log st)) + invocations [e].
Proof.
  intros Hcall Hcatch Hq. destruct e as [args|i|a]; cbn [step invocations].
  - destruct (accepts h args (ui st)); [|split; [exact Hq|lia]].
    cbn [log suspended]. split.
    + apply Forall_app. split; [exact Hq|]. constructor; [|constructor].
      apply requests_later.
    + rewrite requests_app, length_app, requests_sent.
      specialize (Hcall args (ui st)). lia.
  - destruct (suspended st !! i) as [p|] eqn:Hp; [|split; [exact Hq|lia]].
    assert (Hlater : requests (s_later p) = []).
    { unfold quiet in Hq. rewrite Forall_lookup in Hq. exact (Hq _ _ Hp). }
    assert (Hlogged : requests
                        (snd match s_outcome p with
                             | Normal rest => (rest (ui st), [])
                             | Throw err => rejected h (s_args p) err (ui st)
                             end) = []).
    { destruct (s_outcome p); [reflexivity|apply Hcatch]. }
    destruct (match s_outcome p with
              | Normal rest => (rest (ui st), [])
              | Throw err => rejected h (s_args p) err (ui st)
              end) as [s logged].
    cbn [log suspended snd] in *. split.
    + now apply Forall_delete.
    + rewrite !requests_app, Hlater, Hlogged, !app_nil_r. lia.
  - cbn [log suspended]. split; [exact Hq|lia].
Qed.

Lemma no_retry_of (h : Handler UI Args Act) :
  (forall args s, length (requests (effects (awaited h args s))) <= 1) ->
  (forall args err s, requests (snd (rejected h args err s)) = []) ->
  no_retry h.
Proof.
  intros Hcall Hcatch s trace.
  assert (Hgen : forall trace st,
             quiet st ->
             length (requests (log (run h st trace)))
             <= length (requests (log st)) + invocations trace).
  { clear s trace. induction trace as [|e trace IH]; intros st Hq.
    - cbn. lia.
    - cbn [run fold_left]. fold (run h (step h st e) trace).
      destruct (step_requests h st e Hcall Hcatch Hq) as [Hq' Hle].
      specialize (IH _ Hq'). destruct e; cbn [invocations] in *; lia. }
  specialize (Hgen trace (start s)). cbn in Hgen. apply Hgen. constructor.
Qed.

Lemma on_failure_of (h : Handler UI Args Act)
    (seen : Args -> Thrown -> UI -> list Effect -> Prop) :
  (forall args err s,
      requests (snd (rejected h args err s)) = []
      /\ seen args err (at_last h args (fst (rejected h args err s)))
           (snd (rejected h args err s))) ->
  on_failure h seen.
Proof.
  intros H st i p err Hp Ho. cbn [step]. rewrite Hp, Ho.
  destruct (H (s_args p) err (ui st)) as [Hreq Hseen].
  destruct (rejected h (s_args p) err (ui st)) as [s logged].
  exists logged. cbn in *. auto.
Qed.

(** A property of the state of the component that holds along every run. *)
Lemma run_invariant (h : Handler UI Args Act) (P : UI -> Prop)
    (Q : Suspended UI Args -> Prop) :
  (forall args s,
      P s -> accepts h args s = true ->
      P (before h args s)
      /\ forall later, Q {| s_args := args; s_later := later;
                            s_outcome := outcome (awaited h args s) |}) ->
  (forall p s,
      Q p -> P s ->
      P (at_last h (s_args p)
           match s_outcome p with
           | Normal rest => rest s
           | Throw err => fst (rejected h (s_args p) err s)
           end)) ->
  (forall a s, P s -> P (act h a s)) ->
  forall trace st,
    P (ui st) -> Forall Q (suspended st) ->
    P (ui (run h st trace)).
Proof.
  intros Hinvoke Hsettle Hact.
  induction trace as [|e trace IH]; intros st HP HQ; [exact HP|].
  cbn [run fold_left]. fold (run h (step h st e) trace).
  destruct e as [args|i|a]; cbn [step].
  - destruct (accepts h args (ui st)) eqn:Hacc; [|now apply IH].
    destruct (Hinvoke args (ui st) HP Hacc) as [HP' HQ'].
    apply IH; cbn [ui suspended]; [exact HP'|].
    apply Forall_app. split; [exact HQ|]. constructor; [apply HQ'|constructor].
  - destruct (suspended st !! i) as [p|] eqn:Hp; [|now apply IH].
    assert (Qp : Q p) by (rewrite Forall_lookup in HQ; exact (HQ _ _ Hp)).
    specialize (Hsettle p (ui st) Qp HP).
    destruct (s_outcome p) as [rest|err].
    + apply IH; cbn [ui suspended]; [exact Hsettle|now apply Forall_delete].
    + destruct (rejected h (s_args p) err (ui st)) as [s logged].
      apply IH; cbn [ui suspended fst] in *; [exact Hsettle|].
      now apply Forall_delete.
  - apply IH; cbn [ui suspended]; [now apply Hact|exact HQ].
Qed.

End HandlerFacts.

Lemma outcome_and_then {A B} (call : Async A) (rest : A -> B) :
  outcome (AsyncHandler.and_then call rest)
  = match outcome call with
    | Normal data => Normal (rest data)
    | Throw err => Throw err
    end.
Proof. reflexivity. Qed.

(** X13. However the invocations of a handler and the settlements of its
    calls follow one another, overlapping calls included, the error that
    [App] shows for the analysis, and those that [DictionaryPage] and
    [WritingPage] show, are either none or the message of the service: the
    missing-key message without a credential, the operation's fixed
    message with one. The fallback texts of the handlers and the messages
    of the host never appear. *)
Theorem handlers_show_service_message
    (trim : string -> string) (JSON_parse : string -> Completion Value)
    (host_message : Thrown -> string) (ai : option Client) :
  (forall trace,
      let s := AsyncHandler.ui
                 (AsyncHandler.run
                    (AppAnalyzer.handleAnalyze trim JSON_parse host_message ai)
                    (AsyncHandler.start AppAnalyzer.initial) trace) in
      AppAnalyzer.analyzerError s = None
      \/ AppAnalyzer.analyzerError s
         = Some (service_message ai
                   "API Key is missing. Please check your environment configuration."
                   analyze_failed))
  /\ (forall initialResult trace,
      let s := AsyncHandler.ui
                 (AsyncHandler.run
                    (DictionarySearch.handleSearch trim JSON_parse host_message ai)
                    (AsyncHandler.start (DictionarySearch.initial initialResult))
                    trace) in
      DictionarySearch.error s = None
      \/ DictionarySearch.error s
         = Some (service_message ai "API Key missing" lookup_failed))
  /\ (forall initialResult trace,
      let s := AsyncHandler.ui
                 (AsyncHandler.run
                    (WritingHandlers.handlers trim JSON_parse host_message ai)
                    (AsyncHandler.start (WritingHandlers.initial initialResult))
                    trace) in
      WritingHandlers.error s = None
      \/ WritingHandlers.error s
         = Some (service_message ai "API Key missing" writing_failed)).
Proof.
  split; [|split].
  - intros trace.
    set (message := service_message ai _ _).
    apply (run_invariant _
             (fun s => AppAnalyzer.analyzerError s = None
                       \/ AppAnalyzer.analyzerError s = Some message)
             (fun p => match AsyncHandler.s_outcome p with
                       | Normal rest =>
                           forall s, AppAnalyzer.analyzerError (rest s)
                                     = AppAnalyzer.analyzerError s
                       | Throw err =>
                           AsyncHandler.message_or host_message err
                             "分析失败，请稍后再试。" = message
                       end)).
    + intros [sentence level] s _ _. split; [now left|]. intros later.
      cbn [AsyncHandler.s_outcome AsyncHandler.awaited AppAnalyzer.handleAnalyze].
      rewrite outcome_and_then. subst message. destruct ai as [client|].
      * destruct (json_outcome_analyze JSON_parse client sentence level)
          as [[v ->]| ->]; [intros; reflexivity|reflexivity].
      * reflexivity.
    + intros p s Qp Ps. cbn [AsyncHandler.at_last AppAnalyzer.handleAnalyze].
      destruct (AsyncHandler.s_outcome p) as [rest|err]; cbn.
      * rewrite Qp. exact Ps.
      * right. now rewrite Qp.
    + intros [].
    + now left.
    + constructor.
  - intros initialResult trace.
    set (message := service_message ai _ _).
    apply (run_invariant _
             (fun s => DictionarySearch.error s = None
                       \/ DictionarySearch.error s = Some message)
             (fun p => match AsyncHandler.s_outcome p with
                       | Normal rest =>
                           forall s, DictionarySearch.error (rest s)
                                     = DictionarySearch.error s
                       | Throw err =>
                           AsyncHandler.message_or host_message err
                             "查询失败，请稍后再试。" = message
                       end)).
    + intros [query level] s _ _. split; [now left|]. intros later.
      cbn [AsyncHandler.s_outcome AsyncHandler.awaited
           DictionarySearch.handleSearch].
      rewrite outcome_and_then. subst message. destruct ai as [client|].
      * destruct (json_outcome_lookup JSON_parse client query level)
          as [[v ->]| ->]; [intros; reflexivity|reflexivity].
      * reflexivity.
    + intros p s Qp Ps. cbn [AsyncHandler.at_last DictionarySearch.handleSearch].
      destruct (AsyncHandler.s_outcome p) as [rest|err]; cbn.
      * rewrite Qp. exact Ps.
      * right. now rewrite Qp.
    + intros [].
    + now left.
    + constructor.
  - intros initialResult trace.
    set (message := service_message ai _ _).
    apply (run_invariant _
             (fun s => WritingHandlers.error s = None
                       \/ WritingHandlers.error s = Some message)
             (fun p => match AsyncHandler.s_outcome p, AsyncHandler.s_args p with
                       | Normal rest, _ =>
                           forall s, WritingHandlers.error (rest s)
                                     = WritingHandlers.error s
                       | Throw err, WritingHandlers.Analyze _ _ _ =>
                           AsyncHandler.message_or host_message err
                             "分析失败，请稍后再试。" = message
                       | Throw _, WritingHandlers.SyntaxAnalyze _ _ => True
                       end)).
    + intros [inputText mode level|sentence level] s Ps _.
      * split; [now left|]. intros later.
        cbn [AsyncHandler.s_outcome AsyncHandler.s_args AsyncHandler.awaited
             WritingHandlers.handlers].
        rewrite outcome_and_then. subst message. destruct ai as [client|].
        -- destruct (json_outcome_writing JSON_parse client inputText mode level)
             as [[v ->]| ->]; [intros; reflexivity|reflexivity].
        -- reflexivity.
      * split; [exact Ps|]. intros later.
        cbn [AsyncHandler.s_outcome AsyncHandler.s_args AsyncHandler.awaited
             WritingHandlers.handlers].
        rewrite outcome_and_then.
        destruct (outcome (analyzeSentence JSON_parse ai sentence level));
          [intros; reflexivity|exact I].
    + intros p s Qp Ps. cbn [AsyncHandler.at_last WritingHandlers.handlers].
      destruct (AsyncHandler.s_outcome p) as [rest|err],
        (AsyncHandler.s_args p) as [inputText mode level|sentence level]; cbn.
      * rewrite Qp. exact Ps.
      * rewrite Qp. exact Ps.
      * right. now rewrite Qp.
      * exact Ps.
    + intros [] s Ps. exact Ps.
    + now left.
    + constructor.
Qed.

(** X13 along two overlapping analyses without a connection: both are
    sent, and after both have settled the one message of the service is
    shown. *)
Lemma handlers_show_service_message_witness :
  AppAnalyzer.analyzerError
    (AsyncHandler.ui
       (AsyncHandler.run
          (AppAnalyzer.handleAnalyze MoreExamples.trim Examples.parse
             MoreExamples.host_message (Some Examples.offline))
          (AsyncHandler.start AppAnalyzer.initial)
          [AsyncHandler.Invoke (" I go. "%string, mini);
           AsyncHandler.Invoke ("She go."%string, mini);
           AsyncHandler.Settle 0; AsyncHandler.Settle 0]))
  = Some analyze_failed.
Proof.
  destruct (proj1 (handlers_show_service_message MoreExamples.trim
                     Examples.parse MoreExamples.host_message
                     (Some Examples.offline))
              [AsyncHandler.Invoke (" I go. "%string, mini);
               AsyncHandler.Invoke ("She go."%string, mini);
               AsyncHandler.Settle 0; AsyncHandler.Settle 0])
    as [Hnone|Hshown].
  - vm_compute in Hnone. discriminate Hnone.
  - exact Hshown.
Defined.

(** X14. The one request the chat assistant sends is made of the active
    tab alone: its context type is that of the tab, and the text it quotes
    is the tab's content (the analysed sentence, the looked-up word, the
    joined segment texts) when that is not empty and the placeholder of the
    tab otherwise; the conversation so far is not part of it. *)
Theorem chat_request_quotes_tab_content
    (client : Client) (history : list Message) (tab : App.Tab)
    (sentence word : option string) (writingResult : option WritingResult)
    (message : string) :
  let content :=
    match tab with
    | App.analyzer => sentence
    | App.dictionary => word
    | App.writing => option_map WritingPage.fullText writingResult
    end in
  let context := App.assistantContext tab sentence word writingResult in
  requests (effects (getChatResponse (Some client) history (fst context)
                       message (snd context)))
  = [SendMessage "gemini-2.5-flash"
       match tab with
       | App.analyzer => ctx_sentence
       | App.dictionary => ctx_word
       | App.writing => ctx_writing
       end
       match content, tab with
       | Some (String _ _ as text), _ => text
       | _, App.analyzer => "用户暂未输入句子"
       | _, App.dictionary => "用户暂未查询单词"
       | _, App.writing => "用户暂未输入文章"
       end
       message]
  /\ forall history',
       getChatResponse (Some client) history' (fst context) message (snd context)
       = getChatResponse (Some client) history (fst context) message
           (snd context).
Proof.
  intros content context. split; [|reflexivity].
  rewrite getChatResponse_requests. subst content context.
  destruct tab; cbn [App.assistantContext fst snd].
  - destruct sentence as [[|c s]|]; reflexivity.
  - destruct word as [[|c s]|]; reflexivity.
  - destruct writingResult as [r|]; cbn [option_map]; [|reflexivity].
    unfold WritingPage.fullText.
    destruct (Array_join _ _); reflexivity.
Qed.

Section DictionaryAudioFacts.
Import DictionaryAudio.

Lemma in_flight_settle (cs : list ResultDisplay.SpeechCall) (p : nat)
    (text : string) (state : ResultDisplay.PromiseState) :
  cs !! p = Some {| ResultDisplay.sc_text := text;
                    ResultDisplay.sc_state := ResultDisplay.Pending |} ->
  state <> ResultDisplay.Pending ->
  S (length (List.filter is_pending
               (<[ p := {| ResultDisplay.sc_text := text;
                           ResultDisplay.sc_state := state |} ]> cs)))
  = length (List.filter is_pending cs).
Proof.
  revert p. induction cs as [|c cs IH]; intros [|p] H Hs; try discriminate.
  - injection H as ->. cbn. destruct state; [contradiction| |]; reflexivity.
  - specialize (IH p H Hs).
    change (<[S p:=?x]> (c :: cs)) with (c :: <[p:=x]> cs).
    cbn [List.filter]. destruct (is_pending c); cbn [length]; lia.
Qed.

Lemma step_exclusive (st : State) (e : Event) :
  exclusive st -> exclusive (step st e).
Proof.
  intros (Hbusy & Hawait & Hflight). unfold busy in Hbusy.
  destruct e as [text suspended|i ok|p ok|]; cbn [step].
  - unfold playAudio. destruct (isAudioPlaying st) eqn:Hplay;
      [split; [unfold busy; now rewrite Hplay|split; assumption]|].
    assert (Hnone : awaiting st = []) by (destruct (awaiting st); [reflexivity|cbn in Hbusy; lia]).
    destruct suspended.
    + split; [unfold busy; cbn; rewrite length_app; cbn; lia|].
      split; assumption.
    + unfold exclusive, busy, fetch, in_flight in *. cbn.
      rewrite List.filter_app, !length_app. cbn. split; [lia|]. split; [|lia].
      rewrite Hnone in *. cbn in *. intros q. split.
      * intros [<-|[]]. eexists. rewrite lookup_app_r, Nat.sub_diag by lia.
        reflexivity.
      * intros [t Hq]. destruct (decide (q < length (calls st))) as [Hlt|Hge].
        -- rewrite lookup_app_l in Hq by exact Hlt.
           exfalso. apply (proj2 (Hawait q)). eauto.
        -- left. apply lookup_lt_Some in Hq. rewrite length_app in Hq.
           cbn in Hq. lia.
  - destruct (resuming st !! i) as [text|] eqn:Hi;
      [|split; [exact Hbusy|split; assumption]].
    assert (Hlen := lookup_lt_Some _ _ _ Hi).
    assert (Hplay : isAudioPlaying st = true)
      by (destruct (isAudioPlaying st); [reflexivity|lia]).
    rewrite Hplay in Hbusy.
    assert (Hnone : awaiting st = []) by (destruct (awaiting st); [reflexivity|cbn in Hbusy; lia]).
    assert (Hdel : length (delete i (resuming st)) = 0).
    { rewrite length_delete by eauto. lia. }
    destruct ok.
    + unfold exclusive, busy, fetch, in_flight in *. cbn.
      rewrite List.filter_app, !length_app, Hdel, Hplay. cbn.
      split; [lia|]. split; [|lia].
      rewrite Hnone in *. cbn in *. intros q. split.
      * intros [<-|[]]. eexists. rewrite lookup_app_r, Nat.sub_diag by lia.
        reflexivity.
      * intros [t Hq]. destruct (decide (q < length (calls st))) as [Hlt|Hge].
        -- rewrite lookup_app_l in Hq by exact Hlt.
           exfalso. apply (proj2 (Hawait q)). eauto.
        -- left. apply lookup_lt_Some in Hq. rewrite length_app in Hq.
           cbn in Hq. lia.
    + unfold exclusive, busy, failed. cbn. rewrite Hdel.
      split; [lia|]. split; assumption.
  - destruct (calls st !! p) as [[text []]|] eqn:Hcall;
      try (split; [exact Hbusy|split; assumption]).
    assert (Hin : In p (awaiting st)) by (apply Hawait; eauto).
    assert (Hplay : isAudioPlaying st = true).
    { destruct (isAudioPlaying st); [reflexivity|].
      destruct (awaiting st); [destruct Hin|cbn in Hbusy; lia]. }
    rewrite Hplay in Hbusy.
    assert (Hone : awaiting st = [p]).
    { destruct (awaiting st) as [|q [|q' l]]; [destruct Hin| |cbn in Hbusy; lia].
      destruct Hin as [->|[]]. reflexivity. }
    assert (Hwaited : existsb (Nat.eqb p) (awaiting st) = true)
      by (rewrite Hone; cbn; now rewrite Nat.eqb_refl).
    rewrite Hwaited, Hone in *. cbn [List.filter]. rewrite Nat.eqb_refl.
    cbn [negb]. cbn in Hbusy.
    assert (Hsettled : forall state, state <> ResultDisplay.Pending ->
              (forall q, In q [] <->
                 exists t, <[p:={| ResultDisplay.sc_text := text;
                                   ResultDisplay.sc_state := state |}]>
                             (calls st) !! q
                           = Some {| ResultDisplay.sc_text := t;
                                     ResultDisplay.sc_state := ResultDisplay.Pending |})
              /\ length (List.filter is_pending
                           (<[p:={| ResultDisplay.sc_text := text;
                                    ResultDisplay.sc_state := state |}]>
                              (calls st))) = 0).
    { intros state Hstate. split.
      - intros q. split; [intros []|]. intros [t Hq].
        destruct (decide (q = p)) as [->|Hne].
        + rewrite list_lookup_insert_eq in Hq by (eapply lookup_lt_Some, Hcall).
          injection Hq as _ Hs. contradiction.
        + rewrite list_lookup_insert_ne in Hq by congruence.
          destruct (proj2 (Hawait q) (ex_intro _ t Hq)) as [->|[]].
          contradiction.
      - pose proof (in_flight_settle (calls st) p text state Hcall Hstate) as Hs.
        unfold in_flight in Hflight. cbn in Hflight. lia. }
    destruct ok.
    + destruct (Hsettled ResultDisplay.Fulfilled) as [Ha Hf]; [discriminate|].
      unfold exclusive, busy, in_flight. cbn. rewrite Hplay.
      split; [lia|]. split; [exact Ha|exact Hf].
    + destruct (Hsettled ResultDisplay.Rejected) as [Ha Hf]; [discriminate|].
      unfold exclusive, busy, in_flight, failed. cbn.
      split; [lia|]. split; [exact Ha|exact Hf].
  - destruct (sounding st) as [|n] eqn:Hs;
      [split; [unfold busy; now rewrite Hs|split; assumption]|].
    unfold exclusive, busy. cbn.
    destruct (isAudioPlaying st); [|lia]. split; [lia|]. split; assumption.
Qed.

Lemma step_calls (st : State) (e : Event) :
  exclusive st ->
  length (calls (step st e)) + length (resuming (step st e))
  <= length (calls st) + length (resuming st) + accepted st [e].
Proof.
  intros _. destruct e as [text suspended|i ok|p ok|]; cbn [step accepted].
  - unfold playAudio. destruct (isAudioPlaying st); [lia|].
    destruct suspended; cbn; rewrite length_app; cbn; lia.
  - destruct (resuming st !! i) as [text|] eqn:Hi; [|lia].
    assert (Hlen := lookup_lt_Some _ _ _ Hi).
    destruct ok; cbn; rewrite ?length_app, length_delete by eauto; cbn; lia.
  - destruct (calls st !! p) as [[text []]|]; try lia.
    destruct (existsb _ _), ok; cbn; rewrite length_insert; lia.
  - destruct (sounding st); cbn; lia.
Qed.

(** X15. The play button of the dictionary never has two things going on:
    after every event at most one call of [generateSpeech] is in flight,
    and while [isAudioPlaying] is unset none is, no source is sounding and
    no [resume] is awaited; a click while it is set is ignored; and no call
    is made but for a click that was not ignored (nothing is cached: each
    such click makes its own call). *)
Theorem dictionary_audio_is_exclusive (trace : list Event) :
  let st := run initial trace in
  length (in_flight st) <= 1
  /\ (isAudioPlaying st = false ->
      in_flight st = [] /\ resuming st = [] /\ sounding st = 0)
  /\ (isAudioPlaying st = true ->
      forall text suspended, step st (Play text suspended) = st)
  /\ length (calls st) <= accepted initial trace.
Proof.
  assert (Hgen : forall trace st,
             exclusive st ->
             exclusive (run st trace)
             /\ length (calls (run st trace)) + length (resuming (run st trace))
                <= length (calls st) + length (resuming st) + accepted st trace).
  { clear. induction trace as [|e trace IH]; intros st Hex.
    - cbn. split; [exact Hex|lia].
    - cbn [run fold_left accepted]. fold (run (step st e) trace).
      destruct (IH _ (step_exclusive st e Hex)) as [Hex' Hle].
      split; [exact Hex'|]. pose proof (step_calls st e Hex) as Hstep.
      cbn [accepted] in Hstep. lia. }
  intros st. destruct (Hgen trace initial) as [(Hbusy & Hawait & Hflight) Hle].
  { split; [reflexivity|]. split; [|reflexivity].
    intros q. split; [intros []|]. intros [t Hq]. discriminate Hq. }
  fold st in Hbusy, Hawait, Hflight, Hle. unfold busy in Hbusy.
  split; [|split; [|split]].
  - rewrite Hflight. destruct (isAudioPlaying st); lia.
  - intros Hplay. rewrite Hplay in Hbusy.
    destruct (in_flight st), (awaiting st), (resuming st); cbn in *;
      try lia. repeat split. lia.
  - intros Hplay text suspended. cbn. unfold playAudio. now rewrite Hplay.
  - cbn in Hle. lia.
Qed.

(** X15 along a run with an ignored click and a failed request. *)
Lemma dictionary_audio_is_exclusive_witness :
  in_flight (run initial [Play "take" false; Play "take" false; Settle 0 false])
  = []
  /\ step (run initial [Play "take" false]) (Play "give" false)
     = run initial [Play "take" false].
Proof.
  destruct (dictionary_audio_is_exclusive
              [Play "take" false; Play "take" false; Settle 0 false])
    as (_ & Hidle & _).
  destruct (dictionary_audio_is_exclusive [Play "take" false])
    as (_ & _ & Hignored & _).
  split.
  - apply Hidle. vm_compute. reflexivity.
  - apply Hignored. vm_compute. reflexivity.
Defined.

End DictionaryAudioFacts.


(** * The calls of [generateSpeech] by the play buttons *)

Section SpeechCalls.
Import ResultDisplay.

Lemma stored_split (p : nat) (ws : list (nat * Waiter)) :
  length (List.filter is_stored (List.filter (fun '(q, _) => q =? p) ws))
  + length (List.filter is_stored
              (List.filter (fun '(q, _) => negb (q =? p)) ws))
  = length (List.filter is_stored ws).
Proof.
  induction ws as [|[q w] ws IH]; [reflexivity|]. cbn [List.filter].
  destruct (q =? p); cbn [negb List.filter];
    destruct (is_stored (q, w)); cbn [length]; lia.
Qed.

Lemma resume_waiter_owed (p : nat) (ok : bool) (w : Waiter) (st : State) :
  let st' := resume_waiter p ok w st in
  length (calls st') + owed st'
  = length (calls st) + owed st
    + match w, ok with PlayAwaitStored _, false => 1 | _, _ => 0 end
  /\ englishSentence st' = englishSentence st.
Proof.
  unfold owed.
  destruct w as [s|s|s], ok; cbn [resume_waiter];
    try (cbn; split; [lia|reflexivity]).
  - destruct (String.eqb _ _); cbn; (split; [lia|reflexivity]).
  - unfold call_generateSpeech, await. cbn.
    rewrite List.filter_app, !length_app. cbn. split; [lia|reflexivity].
Qed.

Lemma resume_all_owed (p : nat) (ok : bool) (mine : list (nat * Waiter))
    (st : State) :
  let st' := fold_left (fun s '(_, w) => resume_waiter p ok w s) mine st in
  length (calls st') + owed st'
  = length (calls st) + owed st
    + (if ok then 0 else length (List.filter is_stored mine))
  /\ englishSentence st' = englishSentence st.
Proof.
  revert st. induction mine as [|[q w] mine IH]; intros st.
  - cbn. split; [destruct ok; lia|reflexivity].
  - cbn [fold_left].
    destruct (resume_waiter_owed p ok w st) as [Hw Hs].
    destruct (IH (resume_waiter p ok w st)) as [Hle Hs']. cbn zeta in *.
    split; [|congruence]. rewrite Hle, Hw.
    destruct w, ok; cbn; lia.
Qed.

Lemma playAudio_body_owed (sentence : string) (st : State) :
  let st' := playAudio_body sentence st in
  length (calls st') + owed st' <= length (calls st) + owed st + 1
  /\ englishSentence st' = englishSentence st.
Proof.
  unfold playAudio_body.
  destruct (audioCache st); [unfold owed; cbn; split; [lia|reflexivity]|].
  cbn [audioPromise setIsAudioLoading].
  assert (Hawait : forall p w,
             let st' := await p w (setIsAudioLoading true st) in
             length (calls st') + owed st' <= length (calls st) + owed st + 1
             /\ englishSentence st' = englishSentence st).
  { intros p w. unfold await, owed. cbn.
    rewrite List.filter_app, length_app. cbn.
    split; [destruct (is_stored (p, w)); cbn; lia|reflexivity]. }
  destruct (audioPromise st) as [p|].
  - unfold await_promise. cbn [calls setIsAudioLoading].
    destruct (sc_state <$> calls st !! p) as [[]|]; try apply Hawait.
    + destruct (resume_waiter_owed p true (PlayAwaitStored sentence)
                  (setIsAudioLoading true st)) as [H Hs].
      cbn zeta in *. split; [rewrite H; unfold owed; cbn; lia|exact Hs].
    + destruct (resume_waiter_owed p false (PlayAwaitStored sentence)
                  (setIsAudioLoading true st)) as [H Hs].
      cbn zeta in *. split; [rewrite H; unfold owed; cbn; lia|exact Hs].
  - unfold call_generateSpeech, await, owed. cbn.
    rewrite List.filter_app, !length_app. cbn. split; [lia|reflexivity].
Qed.

Lemma step_owed (st : State) (e : Event) :
  length (calls (step st e)) + owed (step st e)
  <= length (calls st) + owed st
     + activations (englishSentence st) [e] + clicks [e]
  /\ englishSentence (step st e)
     = match e with
       | Render sentence => sentence
       | _ => englishSentence st
       end.
Proof.
  destruct e as [sentence|suspended|i ok|p ok|];
    cbn [step activations clicks List.filter is_click length].
  - destruct (String.eqb_spec sentence (englishSentence st)) as [->|_];
      [split; [lia|reflexivity]|].
    unfold prefetch_effect, call_generateSpeech, await, owed. cbn.
    rewrite List.filter_app, !length_app. cbn. split; [lia|reflexivity].
  - destruct (isAudioLoading st); [split; [lia|reflexivity]|].
    unfold playAudio. destruct (isAudioPlaying st); [split; [lia|reflexivity]|].
    destruct suspended.
    + unfold owed. cbn. rewrite length_app. cbn. split; [lia|reflexivity].
    + destruct (playAudio_body_owed (englishSentence st) st) as [H Hs].
      cbn zeta in *. split; [lia|exact Hs].
  - destruct (resuming st !! i) as [sentence|] eqn:Hi; [|split; [lia|reflexivity]].
    assert (Hlen := lookup_lt_Some _ _ _ Hi).
    assert (Hdel : owed (set_resuming (delete i (resuming st)) st) + 1
                   = owed st).
    { unfold owed. cbn. rewrite length_delete by eauto. lia. }
    destruct ok; [|cbn [calls set_resuming englishSentence];
                   split; [lia|reflexivity]].
    destruct (playAudio_body_owed sentence
                (set_resuming (delete i (resuming st)) st)) as [H Hs].
    cbn zeta in *. cbn [calls set_resuming englishSentence] in *.
    split; [lia|exact Hs].
  - unfold settle.
    destruct (calls st !! p) as [[text []]|] eqn:Hcall;
      try (split; [lia|reflexivity]).
    set (settled := {| sc_text := text;
                       sc_state := if ok then Fulfilled else Rejected |}).
    set (mine := List.filter (fun '(q, _) => q =? p) (waiters st)).
    set (others := List.filter (fun '(q, _) => negb (q =? p)) (waiters st)).
    set (st0 := set_waiters others (set_calls (<[p:=settled]> (calls st)) st)).
    destruct (resume_all_owed p ok mine st0) as [H Hs]. cbn zeta in *.
    split; [|exact Hs]. rewrite H. unfold owed. subst st0. cbn.
    rewrite length_insert.
    pose proof (stored_split p (waiters st)) as Hsplit.
    fold mine others in Hsplit. destruct ok; lia.
  - unfold owed. cbn. split; [lia|reflexivity].
Qed.

Lemma run_owed (trace : list Event) (st : State) :
  length (calls (run st trace)) + owed (run st trace)
  <= length (calls st) + owed st
     + activations (englishSentence st) trace + clicks trace.
Proof.
  revert st. induction trace as [|e trace IH]; intros st; [cbn; lia|].
  cbn [run fold_left]. fold (run (step st e) trace).
  destruct (step_owed st e) as [Hle Hs]. specialize (IH (step st e)).
  rewrite Hs in IH. unfold clicks in *.
  destruct e as [sentence| | | |];
    cbn [activations List.filter is_click length] in *; try lia.
  destruct (String.eqb_spec sentence (englishSentence st)) as [->|_]; lia.
Qed.

Lemma dictionary_step_calls (st : DictionaryAudio.State)
    (e : DictionaryAudio.Event) :
  length (DictionaryAudio.calls (DictionaryAudio.step st e))
  + length (DictionaryAudio.resuming (DictionaryAudio.step st e))
  <= length (DictionaryAudio.calls st) + length (DictionaryAudio.resuming st)
     + DictionaryAudio.plays [e].
Proof.
  destruct e as [text suspended|i ok|p ok|];
    cbn [DictionaryAudio.step DictionaryAudio.plays DictionaryAudio.is_play
         List.filter length].
  - unfold DictionaryAudio.playAudio.
    destruct (DictionaryAudio.isAudioPlaying st); [lia|].
    destruct suspended; cbn; rewrite length_app; cbn; lia.
  - destruct (DictionaryAudio.resuming st !! i) as [text|] eqn:Hi; [|lia].
    assert (Hlen := lookup_lt_Some _ _ _ Hi).
    destruct ok; cbn; rewrite ?length_app, length_delete by eauto; cbn; lia.
  - destruct (DictionaryAudio.calls st !! p) as [[text []]|]; try lia.
    destruct (existsb _ _), ok; cbn; rewrite length_insert; lia.
  - destruct (DictionaryAudio.sounding st); cbn; lia.
Qed.

Lemma dictionary_run_calls (trace : list DictionaryAudio.Event)
    (st : DictionaryAudio.State) :
  length (DictionaryAudio.calls (DictionaryAudio.run st trace))
  + length (DictionaryAudio.resuming (DictionaryAudio.run st trace))
  <= length (DictionaryAudio.calls st) + length (DictionaryAudio.resuming st)
     + DictionaryAudio.plays trace.
Proof.
  revert st. induction trace as [|e trace IH]; intros st; [cbn; lia|].
  cbn [DictionaryAudio.run fold_left].
  fold (DictionaryAudio.run (DictionaryAudio.step st e) trace).
  pose proof (dictionary_step_calls st e) as Hle.
  specialize (IH (DictionaryAudio.step st e)).
  unfold DictionaryAudio.plays in *. cbn [List.filter] in *.
  destruct (DictionaryAudio.is_play e); cbn [length] in *; lia.
Qed.

End SpeechCalls.

(** * No second fetch *)

Section NoRetry.
Import AsyncHandler ResultDisplay.



End NoRetry.
